(** * Tabular value iteration (part1/tabular_value_iteration.py)

    A shallow embedding of the [ValueIteration] class: the Bellman backups
    [get_next_values] and [get_next_policy], the stopping rule
    [_stop_condition], the constructor and the [train] loop.

    numpy's float64 arithmetic is read as exact real arithmetic ([R] of the
    Standard Library): there is no rounding, no overflow, and neither inf
    nor nan.  Python exceptions are values of [exn], carried by the
    [result] monad. *)

From Stdlib Require Import Reals Lra Lia ZArith Bool String.
From stdpp Require Import base list.

Open Scope R_scope.

(** ** Exceptions *)

Inductive exn : Set :=
| AssertionError
| ZeroDivisionError
| ValueError
| IndexError.

Inductive result (A : Type) : Type :=
| Ok (a : A)
| Raise (e : exn).

Arguments Ok {A} a.
Arguments Raise {A} e.

#[global] Instance result_ret : MRet result := fun A a => Ok a.

#[global] Instance result_bind : MBind result := fun A B f m =>
  match m with
  | Ok a => f a
  | Raise e => Raise e
  end.

(** [for i in range(n): st = body(i, st)], stopping at the first exception. *)
Fixpoint for_from {St : Type} (i n : nat) (body : nat -> St -> result St)
    (st : St) : result St :=
  match n with
  | O => Ok st
  | S n' => st' ← body i st; for_from (S i) n' body st'
  end.

Definition for_range {St : Type} (n : nat) (body : nat -> St -> result St)
    (st : St) : result St :=
  for_from 0 n body st.

(** ** The numpy operations the class uses *)

Definition Rltb (x y : R) : bool := if Rlt_dec x y then true else false.

(** Python's [x / y] on floats: a zero divisor raises. *)
Definition py_div (x y : R) : result R :=
  if Req_dec_T y 0 then Raise ZeroDivisionError else Ok (x / y).

(** Python's [x % y] on ints: a zero divisor raises; the sign of the result
    is the divisor's, as [Z.modulo] has it. *)
Definition py_mod (x y : Z) : result Z :=
  if Z.eqb y 0 then Raise ZeroDivisionError else Ok (Z.modulo x y).

Definition np_zeros (n : nat) : list R := replicate n 0.

Definition np_zeros2 (n m : nat) : list (list R) := replicate n (np_zeros m).

Definition np_sum (l : list R) : R := foldr Rplus 0 l.

Definition np_abs (l : list R) : list R := map Rabs l.

Definition np_exp (l : list R) : list R := map exp l.

(** [np.max] of a one-dimensional array; the empty array raises. *)
Definition np_max (l : list R) : result R :=
  match l with
  | [] => Raise ValueError
  | x :: l' => Ok (foldl Rmax x l')
  end.

(** [np.argmax]: the first index holding the maximum. *)
Fixpoint argmax_from (best : nat) (bv : R) (i : nat) (l : list R) : nat :=
  match l with
  | [] => best
  | x :: l' =>
      if Rlt_dec bv x then argmax_from i x (S i) l'
      else argmax_from best bv (S i) l'
  end.

Definition np_argmax (l : list R) : result nat :=
  match l with
  | [] => Raise ValueError
  | x :: l' => Ok (argmax_from 0 x 1 l')
  end.

(** Elementwise binary operation on one-dimensional arrays with numpy's
    broadcasting: equal lengths pair up, a length-1 operand is stretched,
    anything else raises. *)
Definition broadcast (f : R -> R -> R) (x y : list R) : result (list R) :=
  if Nat.eqb (length x) (length y) then Ok (zip_with f x y)
  else match x, y with
       | [c], _ => Ok (map (f c) y)
       | _, [c] => Ok (map (fun a => f a c) x)
       | _, _ => Raise ValueError
       end.

(** A scalar times an array. *)
Definition np_scale (c : R) (l : list R) : list R := map (Rmult c) l.

(** A three-dimensional ndarray: its shape and its entries.  Entries
    outside the shape do not exist and are never read. *)
Record ndarray3 : Type := {
  shape0 : nat;
  shape1 : nat;
  shape2 : nat;
  item : nat -> nat -> nat -> R
}.

(** [t[s, a]]: the one-dimensional slice, or IndexError out of range. *)
Definition slice (t : ndarray3) (s a : nat) : result (list R) :=
  if Nat.ltb s (shape0 t) && Nat.ltb a (shape1 t)
  then Ok (map (item t s a) (seq 0 (shape2 t)))
  else Raise IndexError.

(** All the entries, in row-major order. *)
Definition flatten (t : ndarray3) : list R :=
  flat_map (fun s =>
    flat_map (fun a => map (item t s a) (seq 0 (shape2 t)))
             (seq 0 (shape1 t)))
    (seq 0 (shape0 t)).

(** ** The environment and the two containers *)

(** What the class reads of [env]. *)
Record Env : Type := {
  transitions : ndarray3;
  rewards : ndarray3;
  discount : R
}.

Inductive event : Set :=
| ValueUpdate
| PolicyUpdate.

(** Modelled from the spec: the value container (TabularValueFun) and the
    policy container (TabularPolicy) are not part of the source file; per
    the spec, [get_values()] returns all the stored values and [update]
    replaces what is stored.  [calls] logs the [update] calls, latest
    first, so that they can be counted. *)
Record store : Type := {
  value_fun : list R;
  policy : list (list R);
  calls : list event
}.

Definition get_values (st : store) : list R := value_fun st.

Definition value_fun_update (next_v : list R) (st : store) : store :=
  {| value_fun := next_v; policy := policy st;
     calls := ValueUpdate :: calls st |}.

Definition policy_update (next_pi : list (list R)) (st : store) : store :=
  {| value_fun := value_fun st; policy := next_pi;
     calls := PolicyUpdate :: calls st |}.

(** ** The class *)

(** The fields of a [ValueIteration] object that do not change after
    construction; the containers it points to live in the [store]. *)
Record ValueIteration : Type := {
  env : Env;
  precision : R;
  log_itr : Z;
  policy_type : string;
  max_itr : Z;
  render_itr : Z;
  render : bool;
  num_rollouts : Z;
  temperature : R;
  eps : R
}.

Definition __init__ (env0 : Env) (precision0 : R) (log_itr0 render_itr0 : Z)
    (policy_type0 : string) (max_itr0 : Z) (render0 : bool)
    (num_rollouts0 : Z) (temperature0 : R) : result ValueIteration :=
  if String.eqb policy_type0 "deterministic"
     || String.eqb policy_type0 "max_ent"
  then Ok {| env := env0; precision := precision0; log_itr := log_itr0;
             policy_type := policy_type0; max_itr := max_itr0;
             render_itr := render_itr0; render := render0;
             num_rollouts := num_rollouts0; temperature := temperature0;
             eps := 1 / 100000000 |}
  else Raise AssertionError.

Section Backups.

Variable self : ValueIteration.
Variable st : store.

(** [np.sum(self.transitions[s, a] * (self.rewards[s, a]
             + self.discount * self.value_fun.get_values()))] *)
Definition q_value (s a : nat) : result R :=
  t ← slice (transitions (env self)) s a;
  r ← slice (rewards (env self)) s a;
  x ← broadcast Rplus r (np_scale (discount (env self)) (get_values st));
  y ← broadcast Rmult t x;
  Ok (np_sum y).

(** The inner loop that all four branches share:
    [v_s = np.zeros(num_actions); for a in range(num_actions): v_s[a] = ...] *)
Definition fill_v_s (num_actions s : nat) : result (list R) :=
  for_range num_actions
    (fun a v_s => q ← q_value s a; Ok (<[a := q]> v_s))
    (np_zeros num_actions).

(** [v_s / self.temperature] divides an array by a float, which in numpy
    never raises: at temperature 0 it yields inf or nan, which the reals do
    not have.  What is proved of the max-entropy branches is therefore
    stated for a positive temperature. *)
Definition get_next_values : result (list R) :=
  let num_states := shape0 (transitions (env self)) in
  let num_actions := shape1 (transitions (env self)) in
  let next_v := np_zeros num_states in
  if String.eqb (policy_type self) "deterministic" then
    for_range num_states
      (fun s next_v =>
         v_s ← fill_v_s num_actions s;
         m ← np_max v_s;
         Ok (<[s := m]> next_v))
      next_v
  else if String.eqb (policy_type self) "max_ent" then
    for_range num_states
      (fun s next_v =>
         v_s ← fill_v_s num_actions s;
         m ← np_max v_s;
         let v_s := map (fun q => q - m) v_s in
         Ok (<[s := ln (np_sum (np_exp (map (fun q => q / temperature self) v_s)))
                     * temperature self]> next_v))
      next_v
  else Ok next_v.

Definition get_next_policy : result (list (list R)) :=
  let num_states := shape0 (transitions (env self)) in
  let num_actions := shape1 (transitions (env self)) in
  let pi := np_zeros2 num_states num_actions in
  if String.eqb (policy_type self) "deterministic" then
    for_range num_states
      (fun s pi =>
         v_s ← fill_v_s num_actions s;
         best_action ← np_argmax v_s;
         Ok (alter (fun row => <[best_action := 1]> row) s pi))
      pi
  else if String.eqb (policy_type self) "max_ent" then
    for_range num_states
      (fun s pi =>
         v_s ← fill_v_s num_actions s;
         m ← np_max v_s;
         let v_s := map (fun q => q - m) v_s in
         let softmax_probs := np_exp (map (fun q => q / temperature self) v_s) in
         let total := np_sum softmax_probs in
         let softmax_probs := map (fun p => p / total) softmax_probs in
         Ok (<[s := softmax_probs]> pi))
      pi
  else Ok pi.

End Backups.

(** The second argument of [_stop_condition]: the float [1e6] before the
    first sweep, an array afterwards. *)
Inductive pyval : Type :=
| PyFloat (x : R)
| NdArray (a : list R).

Definition np_sub (x : pyval) (v : list R) : result (list R) :=
  match x with
  | PyFloat c => Ok (map (fun y => c - y) v)
  | NdArray a => broadcast Rminus a v
  end.

(** The divisions here are between floats and raise on a zero divisor.
    [itr] is the loop counter of [train], which starts at 0 and only grows. *)
Definition _stop_condition (self : ValueIteration) (itr : nat)
    (next_v : pyval) (v : list R) : result bool :=
  let gamma := discount (env self) in
  rmax ← np_max (np_abs (flatten (rewards (env self))));
  d ← np_sub next_v v;
  lhs ← np_max (np_abs d);
  k ← py_div (2 * gamma) (1 - gamma);
  bound ← py_div (precision self) k;
  let cond1 := Rltb lhs bound in
  e ← py_div (gamma ^ itr * rmax) (1 - gamma);
  let cond2 := Rltb e (precision self) in
  Ok (cond1 || cond2).

(** ** The training loop *)

Inductive outcome (A : Type) : Type :=
| Done (a : A)
| Raised (e : exn)
| OutOfFuel.

Arguments Done {A} a.
Arguments Raised {A} e.
Arguments OutOfFuel {A}.

(** The local variables of [train] that the loop changes, with the store
    the containers live in. *)
Record loop_state : Type := {
  ls_store : store;
  itr : nat;
  next_v : pyval;
  returns : list R
}.

Section Train.

Variable self : ValueIteration.

(** The rollout collaborator (utils.plot.rollout), reduced to the average
    return it hands back; rendering, plotting and logging touch neither
    container and are left out. *)
Variable rollout : Env -> list (list R) -> nat -> R.

(** One execution of the body of the [while] loop. *)
Definition loop_body (ls : loop_state) : result loop_state :=
  lg ← py_mod (Z.of_nat (itr ls)) (log_itr self);
  let log := Z.eqb lg 0 in
  rd ← py_mod (Z.of_nat (itr ls)) (render_itr self);
  let render := Z.eqb rd 0 && render self in
  logged ← (if log then
              next_pi ← get_next_policy self (ls_store ls);
              let st1 := policy_update next_pi (ls_store ls) in
              let average_return := rollout (env self) (policy st1) (itr ls) in
              Ok (st1, returns ls ++ [average_return])
            else Ok (ls_store ls, returns ls));
  nv ← get_next_values self (logged.1);
  Ok {| ls_store := value_fun_update nv (logged.1);
        itr := S (itr ls);
        next_v := NdArray nv;
        returns := logged.2 |}.

(** The guard of the [while] loop: [not self._stop_condition(itr, next_v, v)
    and itr < self.max_itr]. *)
Definition loop_guard (v : list R) (ls : loop_state) : result bool :=
  stop ← _stop_condition self (itr ls) (next_v ls) v;
  Ok (negb stop && Z.ltb (Z.of_nat (itr ls)) (max_itr self)).

Fixpoint train_loop (fuel : nat) (v : list R) (ls : loop_state)
    : outcome loop_state :=
  match fuel with
  | O => OutOfFuel
  | S fuel' =>
      match loop_guard v ls with
      | Raise e => Raised e
      | Ok false => Done ls
      | Ok true =>
          match loop_body ls with
          | Raise e => Raised e
          | Ok ls' => train_loop fuel' v ls'
          end
      end
  end.

(** What follows the loop, up to the last write to a container. *)
Definition train_finish (ls : loop_state) : result loop_state :=
  next_pi ← get_next_policy self (ls_store ls);
  Ok {| ls_store := policy_update next_pi (ls_store ls);
        itr := itr ls;
        next_v := next_v ls;
        returns := returns ls |}.

Definition train_start (st : store) : loop_state :=
  {| ls_store := st; itr := 0; next_v := PyFloat 1000000; returns := [] |}.

Definition train (fuel : nat) (st : store) : outcome loop_state :=
  let v := get_values st in
  match train_loop fuel v (train_start st) with
  | Done ls =>
      match train_finish ls with
      | Ok ls' => Done ls'
      | Raise e => Raised e
      end
  | Raised e => Raised e
  | OutOfFuel => OutOfFuel
  end.

(** The state after [n] executions of the loop body, guards not consulted. *)
Fixpoint run_body (n : nat) (ls : loop_state) : result loop_state :=
  match n with
  | O => Ok ls
  | S n' => ls' ← loop_body ls; run_body n' ls'
  end.

End Train.

(** ** The quantities the specification speaks of *)

(** [big_sum n f] is the sum of [f i] for [i] from [0] to [n - 1]. *)
Definition big_sum (n : nat) (f : nat -> R) : R :=
  np_sum (map f (seq 0 n)).

(** [m] is the maximum of [f] over the indices below [n]. *)
Definition is_max_over (n : nat) (f : nat -> R) (m : R) : Prop :=
  (exists a, (a < n)%nat /\ f a = m) /\ forall a, (a < n)%nat -> f a <= m.

(** [k] is the smallest index below [n] at which [f] is maximal. *)
Definition is_first_argmax (n : nat) (f : nat -> R) (k : nat) : Prop :=
  (k < n)%nat /\ (forall a, (a < n)%nat -> f a <= f k)
  /\ forall a, (a < k)%nat -> f a < f k.

(** The specification's Q(s,a), the sum over s' of
    T[s,a,s'] * (R[s,a,s'] + gamma * V(s')), for the stored values V. *)
Definition Q_spec (self : ValueIteration) (st : store) (s a : nat) : R :=
  big_sum (shape0 (transitions (env self)))
    (fun s' => item (transitions (env self)) s a s'
               * (item (rewards (env self)) s a s'
                  + discount (env self) * nth s' (value_fun st) 0)).

(** The precondition on shapes: both tensors are (S, A, S) and the value
    container holds S values. *)
Definition shapes_consistent (self : ValueIteration) (st : store) : Prop :=
  let t := transitions (env self) in
  let r := rewards (env self) in
  shape2 t = shape0 t /\ shape0 r = shape0 t /\ shape1 r = shape1 t
  /\ shape2 r = shape0 t /\ length (value_fun st) = shape0 t.

(** Rmax of the specification: the largest |R(s,a,s')| of a tensor. *)
Definition is_rmax (t : ndarray3) (m : R) : Prop :=
  (exists s a s', (s < shape0 t)%nat /\ (a < shape1 t)%nat
                  /\ (s' < shape2 t)%nat /\ Rabs (item t s a s') = m)
  /\ forall s a s', (s < shape0 t)%nat -> (a < shape1 t)%nat ->
                    (s' < shape2 t)%nat -> Rabs (item t s a s') <= m.

(** The value of a [result], [d] if it is an exception. *)
Definition result_get {A : Type} (d : A) (r : result A) : A :=
  match r with
  | Ok a => a
  | Raise _ => d
  end.

Section Rows.

Variable self : ValueIteration.
Variable st : store.

(** [np.max(v_s)] and [np.argmax(v_s)] for the row of Q-values of state [s]. *)
Definition max_q (s : nat) : R :=
  result_get 0
    (np_max (map (Q_spec self st s)
                 (seq 0 (shape1 (transitions (env self)))))).

Definition argmax_q (s : nat) : nat :=
  result_get 0%nat
    (np_argmax (map (Q_spec self st s)
                    (seq 0 (shape1 (transitions (env self)))))).

(** exp((Q(s,a) - max_a Q(s,a)) / tau) *)
Definition boltzmann (s a : nat) : R :=
  exp ((Q_spec self st s a - max_q s) / temperature self).

(** The sum over the actions of the terms above. *)
Definition partition (s : nat) : R :=
  big_sum (shape1 (transitions (env self))) (boltzmann s).

(** tau * log(sum_a exp((Q(s,a) - max_a Q(s,a)) / tau)) *)
Definition soft_value (s : nat) : R :=
  ln (partition s) * temperature self.

(** The softmax row of state [s]. *)
Definition softmax_row (s : nat) : list R :=
  map (fun a => boltzmann s a / partition s)
      (seq 0 (shape1 (transitions (env self)))).

End Rows.

(** A row that is 1 at index [k] and 0 elsewhere. *)
Definition one_hot (n k : nat) : list R :=
  map (fun a => if Nat.eqb a k then 1 else 0) (seq 0 n).

(** ** A one-state, one-action example

    T[0,0,0] = 1, R[0,0,0] = 1, gamma = 1/2 and V = [0], so Q(0,0) = 1. *)

Definition const_tensor (n0 n1 n2 : nat) (c : R) : ndarray3 :=
  {| shape0 := n0; shape1 := n1; shape2 := n2; item := fun _ _ _ => c |}.

Definition env_one : Env :=
  {| transitions := const_tensor 1 1 1 1;
     rewards := const_tensor 1 1 1 1;
     discount := 1 / 2 |}.

(** The constructor's defaults around [env_one], for a given mode and
    temperature. *)
Definition vi_one (mode : string) (tau : R) : ValueIteration :=
  {| env := env_one; precision := 1 / 1000; log_itr := 1;
     policy_type := mode; max_itr := 50; render_itr := 2; render := true;
     num_rollouts := 20; temperature := tau; eps := 1 / 100000000 |}.

Definition st_one : store :=
  {| value_fun := [0]; policy := [[0]]; calls := [] |}.

(** The same example with discount 0. *)
Definition env_zero_discount : Env :=
  {| transitions := const_tensor 1 1 1 1;
     rewards := const_tensor 1 1 1 1;
     discount := 0 |}.

Definition vi_zero_discount : ValueIteration :=
  {| env := env_zero_discount; precision := 1 / 1000; log_itr := 1;
     policy_type := "deterministic"; max_itr := 50; render_itr := 2;
     render := true; num_rollouts := 20; temperature := 1;
     eps := 1 / 100000000 |}.

(** One state and two actions with the same Q-value:
    T[0,a,0] = 1 and R[0,a,0] = 1 for both actions. *)
Definition env_tie : Env :=
  {| transitions := const_tensor 1 2 1 1;
     rewards := const_tensor 1 2 1 1;
     discount := 1 / 2 |}.

Definition vi_tie : ValueIteration :=
  {| env := env_tie; precision := 1 / 1000; log_itr := 1;
     policy_type := "deterministic"; max_itr := 50; render_itr := 2;
     render := true; num_rollouts := 20; temperature := 1;
     eps := 1 / 100000000 |}.

(** The tie example in max-entropy mode. *)
Definition vi_tie_soft : ValueIteration :=
  {| env := env_tie; precision := 1 / 1000; log_itr := 1;
     policy_type := "max_ent"; max_itr := 50; render_itr := 2;
     render := true; num_rollouts := 20; temperature := 1;
     eps := 1 / 100000000 |}.

(** This call does not fail the constructor's check. *)
Definition never_asserts {A : Type} (r : result A) : Prop :=
  r <> Raise AssertionError.

(** How many times the value container was updated, from the call log. *)
Fixpoint value_updates (l : list event) : nat :=
  match l with
  | [] => 0
  | ValueUpdate :: l' => S (value_updates l')
  | PolicyUpdate :: l' => value_updates l'
  end.

(** The entry for state [s] of a returned array ([0] if there is none). *)
Definition value_at (r : result (list R)) (s : nat) : R :=
  nth s (result_get [] r) 0.

(** [f tau] tends to [l] as [tau] decreases to 0. *)
Definition tends_to_at_zero (f : R -> R) (l : R) : Prop :=
  forall eps, 0 < eps ->
    exists delta,
      0 < delta /\ forall tau, 0 < tau < delta -> Rabs (f tau - l) < eps.

(** The inputs on which [train] is meant to run: consistent shapes, at
    least one state and one action, a discount strictly between 0 and 1,
    non-zero logging and rendering periods, and a valid mode. *)
Definition trainable (self : ValueIteration) (st : store) : Prop :=
  shapes_consistent self st
  /\ (0 < shape0 (transitions (env self)))%nat
  /\ (0 < shape1 (transitions (env self)))%nat
  /\ 0 < discount (env self) < 1
  /\ log_itr self <> 0%Z
  /\ render_itr self <> 0%Z
  /\ (policy_type self = "deterministic"%string
      \/ policy_type self = "max_ent"%string).

(** What the loop keeps true of its state: the container still holds S
    values, and [next_v] is the initial float or an array of S values. *)
Definition loop_invariant (self : ValueIteration) (ls : loop_state) : Prop :=
  length (value_fun (ls_store ls)) = shape0 (transitions (env self))
  /\ match next_v ls with
     | PyFloat _ => True
     | NdArray a => length a = shape0 (transitions (env self))
     end.

(** The object [self] with another temperature. *)
Definition with_temperature (self : ValueIteration) (tau : R)
    : ValueIteration :=
  {| env := env self; precision := precision self; log_itr := log_itr self;
     policy_type := policy_type self; max_itr := max_itr self;
     render_itr := render_itr self; render := render self;
     num_rollouts := num_rollouts self; temperature := tau;
     eps := eps self |}.

(** The entry for state [s] and action [a] of a returned table. *)
Definition policy_at (r : result (list (list R))) (s a : nat) : R :=
  nth a (nth s (result_get [] r) []) 0.

(** [f tau] tends to [l] as [tau] grows without bound. *)
Definition tends_to_at_infinity (f : R -> R) (l : R) : Prop :=
  forall eps, 0 < eps ->
    exists bound,
      0 < bound /\ forall tau, bound < tau -> Rabs (f tau - l) < eps.

(** Every slice [t[s, a]] is a probability distribution over s'. *)
Definition stochastic (t : ndarray3) : Prop :=
  forall s a, (s < shape0 t)%nat -> (a < shape1 t)%nat ->
    (forall s', (s' < shape2 t)%nat -> 0 <= item t s a s')
    /\ big_sum (shape2 t) (item t s a) = 1.

(** Every entry of [t] is non-negative. *)
Definition nonneg_tensor (t : ndarray3) : Prop :=
  forall s a s', (s < shape0 t)%nat -> (a < shape1 t)%nat ->
    (s' < shape2 t)%nat -> 0 <= item t s a s'.

(** A store holding the values [V]. *)
Definition store_of (V : list R) : store :=
  {| value_fun := V; policy := []; calls := [] |}.

(** [n] Bellman backups in a row, starting from the values [V]. *)
Fixpoint iter_values (self : ValueIteration) (n : nat) (V : list R)
    : result (list R) :=
  match n with
  | O => Ok V
  | S n' => V' ← get_next_values self (store_of V); iter_values self n' V'
  end.

(** How many times the policy container was updated, from the call log. *)
Fixpoint policy_updates (l : list event) : nat :=
  match l with
  | [] => 0
  | PolicyUpdate :: l' => S (policy_updates l')
  | ValueUpdate :: l' => policy_updates l'
  end.

(** ** Loops that fill an array *)

Lemma insert_at_length {A : Type} (l : list A) (x y : A) (r : list A) :
  <[length l := x]> (l ++ y :: r) = l ++ x :: r.
Proof.
  induction l as [|z l IH]; simpl; [reflexivity|].
  f_equal. exact IH.
Qed.

Lemma map_seq_snoc {A : Type} (f : nat -> A) (n : nat) :
  map f (seq 0 (S n)) = map f (seq 0 n) ++ [f n].
Proof.
  rewrite seq_S, map_app. reflexivity.
Qed.

Lemma for_from_fill {A : Type} (d : A) (f : nat -> A)
    (body : nat -> list A -> result (list A)) (k : nat) :
  forall i,
    (forall a j, (i <= a)%nat -> (a + S j = i + k)%nat ->
       body a (map f (seq 0 a) ++ replicate (S j) d)
       = Ok (map f (seq 0 (S a)) ++ replicate j d)) ->
    for_from i k body (map f (seq 0 i) ++ replicate k d)
    = Ok (map f (seq 0 (i + k))).
Proof.
  induction k as [|k IH]; intros i Hbody.
  - simpl. rewrite app_nil_r, Nat.add_0_r. reflexivity.
  - cbn [for_from]. rewrite (Hbody i k); [|lia|lia]. cbn [mbind result_bind].
    replace (i + S k)%nat with (S i + k)%nat by lia.
    apply IH. intros a j Hle Hsum. apply Hbody; lia.
Qed.

Lemma for_range_fill {A : Type} (d : A) (f : nat -> A)
    (body : nat -> list A -> result (list A)) (n : nat) :
  (forall a j, (a + S j = n)%nat ->
     body a (map f (seq 0 a) ++ replicate (S j) d)
     = Ok (map f (seq 0 (S a)) ++ replicate j d)) ->
  for_range n body (replicate n d) = Ok (map f (seq 0 n)).
Proof.
  intros Hbody. unfold for_range.
  apply (for_from_fill d f body n 0%nat).
  intros a j _ Hsum. apply Hbody. lia.
Qed.

Lemma fill_step {A : Type} (d : A) (f : nat -> A) (a j : nat) (x : A) :
  x = f a ->
  <[a := x]> (map f (seq 0 a) ++ replicate (S j) d)
  = map f (seq 0 (S a)) ++ replicate j d.
Proof.
  intros ->. rewrite map_seq_snoc, <- app_assoc. simpl.
  rewrite <- (insert_at_length (map f (seq 0 a)) (f a) d (replicate j d)).
  rewrite length_map, length_seq. reflexivity.
Qed.

(** ** Broadcasting and the Q-values *)

Lemma broadcast_same_length (f : R -> R -> R) (x y : list R) :
  length x = length y -> broadcast f x y = Ok (zip_with f x y).
Proof.
  intros H. unfold broadcast. rewrite H, Nat.eqb_refl. reflexivity.
Qed.

Lemma zip_with_map_same {A : Type} (f : R -> R -> R) (g h : A -> R)
    (l : list A) :
  zip_with f (map g l) (map h l) = map (fun i => f (g i) (h i)) l.
Proof.
  induction l as [|x l IH]; simpl; [reflexivity|]. f_equal. exact IH.
Qed.

Lemma list_as_map_nth (d : R) (l : list R) :
  l = map (fun i => nth i l d) (seq 0 (length l)).
Proof.
  induction l as [|x l IH]; simpl; [reflexivity|].
  f_equal. rewrite <- seq_shift, map_map. exact IH.
Qed.

Lemma slice_in_range (t : ndarray3) (s a : nat) :
  (s < shape0 t)%nat -> (a < shape1 t)%nat ->
  slice t s a = Ok (map (item t s a) (seq 0 (shape2 t))).
Proof.
  intros Hs Ha. unfold slice.
  apply Nat.ltb_lt in Hs. apply Nat.ltb_lt in Ha.
  rewrite Hs, Ha. reflexivity.
Qed.

Section BackupFacts.

Variable self : ValueIteration.
Variable st : store.
Hypothesis Hshape : shapes_consistent self st.

Let num_states := shape0 (transitions (env self)).
Let num_actions := shape1 (transitions (env self)).

Lemma q_value_ok (s a : nat) :
  (s < num_states)%nat -> (a < num_actions)%nat ->
  q_value self st s a = Ok (Q_spec self st s a).
Proof.
  intros Hs Ha. destruct Hshape as (H2 & H0 & H1 & H2' & HV).
  unfold q_value, Q_spec, big_sum.
  rewrite (slice_in_range (transitions (env self))) by assumption.
  cbn [mbind result_bind].
  rewrite (slice_in_range (rewards (env self)))
    by (rewrite ?H0, ?H1; assumption).
  cbn [mbind result_bind]. rewrite H2, H2'.
  unfold get_values, np_scale.
  rewrite (list_as_map_nth 0 (value_fun st)) at 1.
  rewrite HV, map_map.
  rewrite broadcast_same_length by (rewrite !length_map; reflexivity).
  cbn [mbind result_bind]. rewrite zip_with_map_same.
  rewrite broadcast_same_length by (rewrite !length_map; reflexivity).
  cbn [mbind result_bind]. rewrite zip_with_map_same. reflexivity.
Qed.

Lemma fill_v_s_ok (s : nat) :
  (s < num_states)%nat ->
  fill_v_s self st num_actions s
  = Ok (map (Q_spec self st s) (seq 0 num_actions)).
Proof.
  intros Hs. unfold fill_v_s, np_zeros.
  apply for_range_fill. intros a j Hsum.
  rewrite q_value_ok by (assumption || lia).
  cbn [mbind result_bind]. f_equal. apply fill_step. reflexivity.
Qed.

End BackupFacts.

(** ** [np.max] and [np.argmax] *)

Lemma foldl_Rmax_spec (l : list R) :
  forall x, (foldl Rmax x l = x \/ In (foldl Rmax x l) l)
            /\ x <= foldl Rmax x l
            /\ forall y, In y l -> y <= foldl Rmax x l.
Proof.
  induction l as [|z l IH]; intros x; simpl.
  - split; [left; reflexivity|]. split; [lra|]. intros y [].
  - destruct (IH (Rmax x z)) as (Hin & Hle & Hall).
    pose proof (Rmax_l x z) as Hl. pose proof (Rmax_r x z) as Hr.
    split; [|split].
    + destruct Hin as [Heq|Hin]; [|right; right; exact Hin].
      rewrite Heq. unfold Rmax. destruct (Rle_dec x z); [right|]; auto.
    + lra.
    + intros y [<-|Hy]; [lra|]. apply Hall, Hy.
Qed.

Lemma np_max_spec (l : list R) (m : R) :
  np_max l = Ok m -> In m l /\ forall y, In y l -> y <= m.
Proof.
  destruct l as [|x l]; simpl; [discriminate|].
  intros [= <-]. destruct (foldl_Rmax_spec l x) as (Hin & Hle & Hall).
  split.
  - destruct Hin as [->|Hin]; auto.
  - intros y [<-|Hy]; auto.
Qed.

Lemma np_max_nonempty (l : list R) :
  l <> [] -> exists m, np_max l = Ok m.
Proof.
  destruct l as [|x l]; [congruence|]. intros _. simpl. eauto.
Qed.

Lemma np_max_map_seq (n : nat) (f : nat -> R) :
  (0 < n)%nat ->
  exists m, np_max (map f (seq 0 n)) = Ok m /\ is_max_over n f m.
Proof.
  intros Hn.
  destruct (np_max_nonempty (map f (seq 0 n))) as [m Hm].
  { destruct n; [lia|]. simpl. discriminate. }
  exists m. split; [exact Hm|].
  destruct (np_max_spec _ _ Hm) as [Hin Hall]. split.
  - apply in_map_iff in Hin. destruct Hin as (a & Ha & Hseq).
    apply in_seq in Hseq. exists a. split; [lia|exact Ha].
  - intros a Ha. apply Hall, in_map, in_seq. lia.
Qed.

Lemma is_max_over_unique (n : nat) (f : nat -> R) (m1 m2 : R) :
  is_max_over n f m1 -> is_max_over n f m2 -> m1 = m2.
Proof.
  intros [(a1 & Ha1 & E1) H1] [(a2 & Ha2 & E2) H2].
  pose proof (H1 a2 Ha2). pose proof (H2 a1 Ha1). lra.
Qed.

Lemma argmax_from_spec (f : nat -> R) (n : nat) :
  forall i best,
    (best < i)%nat ->
    (forall a, (a < i)%nat -> f a <= f best) ->
    (forall a, (a < best)%nat -> f a < f best) ->
    is_first_argmax (i + n) f
      (argmax_from best (f best) i (map f (seq i n))).
Proof.
  induction n as [|n IH]; intros i best Hlt Hle Hfirst; simpl.
  - split; [lia|]. split; [|exact Hfirst].
    intros a Ha. apply Hle. lia.
  - replace (i + S n)%nat with (S i + n)%nat by lia.
    destruct (Rlt_dec (f best) (f i)) as [Hb|Hb].
    + apply IH; [lia| |].
      * intros a Ha. destruct (Nat.eq_dec a i) as [->|Hne]; [lra|].
        specialize (Hle a ltac:(lia)). lra.
      * intros a Ha. specialize (Hle a Ha). lra.
    + apply IH; [lia| |exact Hfirst].
      intros a Ha. destruct (Nat.eq_dec a i) as [->|Hne]; [lra|].
      apply Hle. lia.
Qed.

Lemma np_argmax_map_seq (n : nat) (f : nat -> R) :
  (0 < n)%nat ->
  exists k, np_argmax (map f (seq 0 n)) = Ok k /\ is_first_argmax n f k.
Proof.
  intros Hn. destruct n as [|n]; [lia|]. simpl.
  eexists. split; [reflexivity|].
  apply (argmax_from_spec f n 1 0); [lia| |intros a Ha; lia].
  intros a Ha. replace a with 0%nat by lia. lra.
Qed.

Lemma lookup_map_seq {A : Type} (f : nat -> A) (n s : nat) :
  (s < n)%nat -> map f (seq 0 n) !! s = Some (f s).
Proof.
  induction n as [|n IH]; intros Hs; [lia|].
  rewrite map_seq_snoc.
  destruct (Nat.eq_dec s n) as [->|Hne].
  - rewrite lookup_app_r by (rewrite length_map, length_seq; lia).
    rewrite length_map, length_seq, Nat.sub_diag. reflexivity.
  - rewrite lookup_app_l by (rewrite length_map, length_seq; lia).
    apply IH. lia.
Qed.

Section ValueFacts.

Variable self : ValueIteration.
Variable st : store.
Hypothesis Hshape : shapes_consistent self st.

Let num_states := shape0 (transitions (env self)).
Let num_actions := shape1 (transitions (env self)).

Hypothesis Hactions : (0 < num_actions)%nat.

Lemma max_q_spec (s : nat) :
  np_max (map (Q_spec self st s) (seq 0 num_actions)) = Ok (max_q self st s)
  /\ is_max_over num_actions (Q_spec self st s) (max_q self st s).
Proof.
  destruct (np_max_map_seq num_actions (Q_spec self st s) Hactions)
    as (m & Hm & Hmax).
  unfold max_q. fold num_actions. rewrite Hm. simpl. auto.
Qed.

Lemma argmax_q_spec (s : nat) :
  np_argmax (map (Q_spec self st s) (seq 0 num_actions))
  = Ok (argmax_q self st s)
  /\ is_first_argmax num_actions (Q_spec self st s) (argmax_q self st s).
Proof.
  destruct (np_argmax_map_seq num_actions (Q_spec self st s) Hactions)
    as (k & Hk & Hfirst).
  unfold argmax_q. fold num_actions. rewrite Hk. simpl. auto.
Qed.

Lemma get_next_values_det_eq :
  policy_type self = "deterministic"%string ->
  get_next_values self st = Ok (map (max_q self st) (seq 0 num_states)).
Proof.
  intros Hpt. unfold get_next_values. rewrite Hpt. cbn [String.eqb].
  change (String.eqb "deterministic" "deterministic") with true. cbv iota.
  unfold np_zeros. apply for_range_fill. intros s j Hsum.
  rewrite (fill_v_s_ok self st Hshape) by (fold num_states; lia).
  cbn [mbind result_bind]. destruct (max_q_spec s) as [Hm _].
  unfold num_actions in Hm. rewrite Hm.
  cbn [mbind result_bind]. f_equal. apply fill_step. reflexivity.
Qed.

End ValueFacts.

(** C2: in deterministic mode, with consistent shapes and at least one
    action, [get_next_values] returns an array of S entries whose entry at
    each state s is the maximum over the actions of Q(s,a), where every
    Q(s,a) is the sum over s' of T[s,a,s'] * (R[s,a,s'] + gamma * V(s'))
    taken on the values V stored when the call starts. *)
Theorem get_next_values_deterministic (self : ValueIteration) (st : store) :
  policy_type self = "deterministic"%string ->
  shapes_consistent self st ->
  (0 < shape1 (transitions (env self)))%nat ->
  exists next_v,
    get_next_values self st = Ok next_v
    /\ length next_v = shape0 (transitions (env self))
    /\ forall s, (s < shape0 (transitions (env self)))%nat ->
         exists m, next_v !! s = Some m
                   /\ is_max_over (shape1 (transitions (env self)))
                        (Q_spec self st s) m.
Proof.
  intros Hpt Hshape Hact.
  exists (map (max_q self st) (seq 0 (shape0 (transitions (env self))))).
  split; [apply get_next_values_det_eq; assumption|].
  split; [rewrite length_map, length_seq; reflexivity|].
  intros s Hs. exists (max_q self st s).
  split; [apply lookup_map_seq, Hs|].
  apply max_q_spec; assumption.
Qed.

(** ** Sums of terms between 0 and 1 *)

Lemma np_sum_snoc (l : list R) (x : R) : np_sum (l ++ [x]) = np_sum l + x.
Proof.
  unfold np_sum. induction l as [|y l IH]; simpl; [lra|].
  rewrite IH. lra.
Qed.

Lemma big_sum_S (n : nat) (f : nat -> R) :
  big_sum (S n) f = big_sum n f + f n.
Proof.
  unfold big_sum. rewrite map_seq_snoc. apply np_sum_snoc.
Qed.

Lemma big_sum_nonneg (n : nat) (f : nat -> R) :
  (forall a, (a < n)%nat -> 0 <= f a) -> 0 <= big_sum n f.
Proof.
  induction n as [|n IH]; intros Hf.
  - unfold big_sum. simpl. lra.
  - rewrite big_sum_S. specialize (Hf n ltac:(lia)) as Hn.
    specialize (IH ltac:(intros a Ha; apply Hf; lia)). lra.
Qed.

Lemma big_sum_ge_term (n : nat) (f : nat -> R) (k : nat) :
  (forall a, (a < n)%nat -> 0 <= f a) -> (k < n)%nat -> f k <= big_sum n f.
Proof.
  induction n as [|n IH]; intros Hf Hk; [lia|].
  rewrite big_sum_S. specialize (Hf n ltac:(lia)) as Hn.
  destruct (Nat.eq_dec k n) as [->|Hne].
  - pose proof (big_sum_nonneg n f ltac:(intros a Ha; apply Hf; lia)). lra.
  - specialize (IH ltac:(intros a Ha; apply Hf; lia) ltac:(lia)). lra.
Qed.

Lemma big_sum_le_count (n : nat) (f : nat -> R) :
  (forall a, (a < n)%nat -> f a <= 1) -> big_sum n f <= INR n.
Proof.
  induction n as [|n IH]; intros Hf.
  - unfold big_sum. simpl. lra.
  - rewrite big_sum_S, S_INR. specialize (Hf n ltac:(lia)) as Hn.
    specialize (IH ltac:(intros a Ha; apply Hf; lia)). lra.
Qed.

Lemma big_sum_scale (n : nat) (f : nat -> R) (c : R) :
  big_sum n (fun a => f a / c) = big_sum n f / c.
Proof.
  induction n as [|n IH].
  - unfold big_sum. simpl. lra.
  - rewrite !big_sum_S, IH. lra.
Qed.

Lemma exp_le_1 (x : R) : x <= 0 -> exp x <= 1.
Proof.
  intros [Hlt| ->].
  - rewrite <- exp_0. left. apply exp_increasing, Hlt.
  - rewrite exp_0. lra.
Qed.

Lemma ln_le_mono (x y : R) : 0 < x -> x <= y -> ln x <= ln y.
Proof.
  intros Hx [Hlt| ->]; [|lra]. left. apply ln_increasing; assumption.
Qed.

Section SoftFacts.

Variable self : ValueIteration.
Variable st : store.
Hypothesis Hshape : shapes_consistent self st.

Let num_states := shape0 (transitions (env self)).
Let num_actions := shape1 (transitions (env self)).

Hypothesis Hactions : (0 < num_actions)%nat.
Hypothesis Hmode : policy_type self = "max_ent"%string.

Lemma get_next_values_soft_eq :
  get_next_values self st = Ok (map (soft_value self st) (seq 0 num_states)).
Proof.
  unfold get_next_values. rewrite Hmode.
  change (String.eqb "max_ent" "deterministic") with false.
  change (String.eqb "max_ent" "max_ent") with true. cbv iota.
  unfold np_zeros. apply for_range_fill. intros s j Hsum.
  rewrite (fill_v_s_ok self st Hshape) by (fold num_states; lia).
  cbn [mbind result_bind].
  destruct (max_q_spec self st Hactions s) as [Hm _].
  unfold num_actions in Hm. rewrite Hm.
  cbn [mbind result_bind]. f_equal. apply fill_step.
  unfold soft_value, partition, big_sum, np_exp. rewrite !map_map.
  reflexivity.
Qed.

Lemma get_next_policy_soft_eq :
  get_next_policy self st = Ok (map (softmax_row self st) (seq 0 num_states)).
Proof.
  unfold get_next_policy. rewrite Hmode.
  change (String.eqb "max_ent" "deterministic") with false.
  change (String.eqb "max_ent" "max_ent") with true. cbv iota.
  unfold np_zeros2. apply for_range_fill. intros s j Hsum.
  rewrite (fill_v_s_ok self st Hshape) by (fold num_states; lia).
  cbn [mbind result_bind].
  destruct (max_q_spec self st Hactions s) as [Hm _].
  unfold num_actions in Hm. rewrite Hm.
  cbn [mbind result_bind]. f_equal. apply fill_step.
  unfold softmax_row, partition, big_sum, np_exp. rewrite !map_map.
  reflexivity.
Qed.

Hypothesis Htemp : 0 < temperature self.

Lemma boltzmann_range (s a : nat) :
  (a < num_actions)%nat -> 0 < boltzmann self st s a <= 1.
Proof.
  intros Ha. unfold boltzmann. split; [apply exp_pos|].
  apply exp_le_1.
  destruct (max_q_spec self st Hactions s) as [_ [_ Hle]].
  specialize (Hle a Ha).
  pose proof (Rinv_0_lt_compat _ Htemp) as Hinv.
  unfold Rdiv. nra.
Qed.

Lemma partition_range (s : nat) :
  1 <= partition self st s <= INR num_actions.
Proof.
  unfold partition. fold num_actions. split.
  - destruct (max_q_spec self st Hactions s) as [_ [(k & Hk & Hqk) _]].
    assert (Hone : boltzmann self st s k = 1).
    { unfold boltzmann. rewrite Hqk.
      replace ((max_q self st s - max_q self st s) / temperature self)
        with 0 by (unfold Rdiv; lra).
      apply exp_0. }
    rewrite <- Hone. apply big_sum_ge_term; [|exact Hk].
    intros a Ha. left. apply boltzmann_range, Ha.
  - apply big_sum_le_count. intros a Ha. apply boltzmann_range, Ha.
Qed.

Lemma soft_value_range (s : nat) :
  0 <= soft_value self st s <= temperature self * ln (INR num_actions).
Proof.
  destruct (partition_range s) as [Hlo Hhi]. unfold soft_value.
  assert (H0 : 0 <= ln (partition self st s)).
  { rewrite <- ln_1. apply ln_le_mono; lra. }
  assert (H1 : ln (partition self st s) <= ln (INR num_actions)).
  { apply ln_le_mono; lra. }
  split; nra.
Qed.

End SoftFacts.

Lemma shapes_consistent_one (mode : string) (tau : R) :
  shapes_consistent (vi_one mode tau) st_one.
Proof.
  repeat split.
Qed.

Lemma Q_spec_one (mode : string) (tau : R) :
  Q_spec (vi_one mode tau) st_one 0 0 = 1.
Proof.
  unfold Q_spec, big_sum, np_sum. simpl. lra.
Qed.

Lemma max_q_one (mode : string) (tau : R) :
  max_q (vi_one mode tau) st_one 0 = 1.
Proof.
  unfold max_q. simpl. apply Q_spec_one.
Qed.

Lemma soft_value_one (tau : R) :
  soft_value (vi_one "max_ent" tau) st_one 0 = 0.
Proof.
  unfold soft_value, partition, big_sum, np_sum, boltzmann. simpl.
  rewrite max_q_one, Q_spec_one.
  replace (exp ((1 - 1) / tau) + 0) with 1.
  - rewrite ln_1. lra.
  - replace ((1 - 1) / tau) with 0 by (unfold Rdiv; lra).
    rewrite exp_0. lra.
Qed.

Lemma get_next_values_one_soft (tau : R) :
  get_next_values (vi_one "max_ent" tau) st_one = Ok [0].
Proof.
  rewrite (get_next_values_soft_eq _ _ (shapes_consistent_one _ _))
    by (simpl; (lia || reflexivity)).
  simpl. rewrite soft_value_one. reflexivity.
Qed.

Lemma get_next_values_one_det (tau : R) :
  get_next_values (vi_one "deterministic" tau) st_one = Ok [1].
Proof.
  rewrite (get_next_values_det_eq _ _ (shapes_consistent_one _ _))
    by (simpl; (lia || reflexivity)).
  simpl. rewrite max_q_one. reflexivity.
Qed.

(** C1: on the one-state example (Q(0,0) = 1, tau = 1) the max-entropy
    branch of [get_next_values] returns [0], while the stabilized
    log-sum-exp with the maximum added back,
    tau * log(sum_a exp((Q - max Q) / tau)) + max Q, is 1 there: the
    maximum that was subtracted is not added back. *)
Theorem max_ent_values_lose_the_maximum :
  get_next_values (vi_one "max_ent" 1) st_one = Ok [0]
  /\ is_max_over 1 (Q_spec (vi_one "max_ent" 1) st_one 0) 1
  /\ 1 * ln (big_sum 1 (fun a =>
               exp ((Q_spec (vi_one "max_ent" 1) st_one 0 a - 1) / 1)))
     + 1 = 1.
Proof.
  split; [apply get_next_values_one_soft|]. split.
  - split.
    + exists 0%nat. split; [lia|apply Q_spec_one].
    + intros a Ha. replace a with 0%nat by lia. rewrite Q_spec_one. lra.
  - unfold big_sum, np_sum. simpl. rewrite Q_spec_one.
    replace (exp ((1 - 1) / 1) + 0) with 1.
    + rewrite ln_1. lra.
    + replace ((1 - 1) / 1) with 0 by lra. rewrite exp_0. lra.
Qed.

(** C6: in max-entropy mode, with consistent shapes, at least one action
    and a positive temperature, [get_next_values] returns an array of S
    entries, each of them between 0 and tau * ln(A); with a single action
    every entry is 0, whatever the rewards and the stored values. *)
Theorem max_ent_values_bounded (self : ValueIteration) (st : store) :
  policy_type self = "max_ent"%string ->
  shapes_consistent self st ->
  (0 < shape1 (transitions (env self)))%nat ->
  0 < temperature self ->
  exists next_v,
    get_next_values self st = Ok next_v
    /\ length next_v = shape0 (transitions (env self))
    /\ forall s, (s < shape0 (transitions (env self)))%nat ->
         exists x, next_v !! s = Some x
           /\ 0 <= x
              <= temperature self * ln (INR (shape1 (transitions (env self))))
           /\ (shape1 (transitions (env self)) = 1%nat -> x = 0).
Proof.
  intros Hmode Hshape Hact Htemp.
  exists (map (soft_value self st) (seq 0 (shape0 (transitions (env self))))).
  split; [apply get_next_values_soft_eq; assumption|].
  split; [rewrite length_map, length_seq; reflexivity|].
  intros s Hs. exists (soft_value self st s).
  split; [apply lookup_map_seq, Hs|].
  pose proof (soft_value_range self st Hact Htemp s) as Hrange.
  split; [exact Hrange|].
  intros Hone. rewrite Hone in Hrange. simpl in Hrange.
  rewrite ln_1 in Hrange. lra.
Qed.

Lemma max_ent_values_bounded_witness :
  exists next_v,
    get_next_values (vi_one "max_ent" 1) st_one = Ok next_v
    /\ length next_v = 1%nat
    /\ forall s, (s < 1)%nat ->
         exists x, next_v !! s = Some x
           /\ 0 <= x <= 1 * ln (INR 1)
           /\ (1%nat = 1%nat -> x = 0).
Proof.
  apply (max_ent_values_bounded (vi_one "max_ent" 1) st_one).
  - reflexivity.
  - repeat split.
  - simpl. lia.
  - simpl. lra.
Defined.

(** ** The softmax rows *)

Lemma softmax_row_sum (self : ValueIteration) (st : store) (s : nat) :
  (0 < shape1 (transitions (env self)))%nat ->
  0 < temperature self ->
  np_sum (softmax_row self st s) = 1.
Proof.
  intros Hact Htemp.
  pose proof (partition_range self st Hact Htemp s) as [Hlo _].
  unfold softmax_row.
  change (np_sum (map ?f (seq 0 ?n))) with (big_sum n f).
  rewrite big_sum_scale. fold (partition self st s).
  apply Rinv_r. lra.
Qed.

Lemma softmax_row_nonneg (self : ValueIteration) (st : store) (s : nat)
    (p : R) :
  (0 < shape1 (transitions (env self)))%nat ->
  0 < temperature self ->
  In p (softmax_row self st s) -> 0 <= p.
Proof.
  intros Hact Htemp Hin.
  pose proof (partition_range self st Hact Htemp s) as [Hlo _].
  unfold softmax_row in Hin. apply in_map_iff in Hin.
  destruct Hin as (a & <- & Ha). apply in_seq in Ha.
  pose proof (boltzmann_range self st Hact Htemp s a ltac:(lia)) as [Hb _].
  left. apply Rdiv_lt_0_compat; lra.
Qed.

(** C5: in max-entropy mode, with consistent shapes, at least one action
    and a positive temperature, [get_next_policy] returns S rows of A
    entries; the entry for state s and action a is
    exp((Q(s,a) - m) / tau) / sum_a' exp((Q(s,a') - m) / tau) with
    m = max_a Q(s,a); every row sums to 1 and has no negative entry. *)
Theorem max_ent_policy_is_softmax (self : ValueIteration) (st : store) :
  policy_type self = "max_ent"%string ->
  shapes_consistent self st ->
  (0 < shape1 (transitions (env self)))%nat ->
  0 < temperature self ->
  exists pi,
    get_next_policy self st = Ok pi
    /\ length pi = shape0 (transitions (env self))
    /\ forall s, (s < shape0 (transitions (env self)))%nat ->
         exists row m,
           pi !! s = Some row
           /\ length row = shape1 (transitions (env self))
           /\ is_max_over (shape1 (transitions (env self)))
                (Q_spec self st s) m
           /\ (forall a, (a < shape1 (transitions (env self)))%nat ->
                 row !! a
                 = Some (exp ((Q_spec self st s a - m) / temperature self)
                         / big_sum (shape1 (transitions (env self)))
                             (fun a' => exp ((Q_spec self st s a' - m)
                                             / temperature self))))
           /\ np_sum row = 1
           /\ forall p, In p row -> 0 <= p.
Proof.
  intros Hmode Hshape Hact Htemp.
  exists (map (softmax_row self st) (seq 0 (shape0 (transitions (env self))))).
  split; [apply get_next_policy_soft_eq; assumption|].
  split; [rewrite length_map, length_seq; reflexivity|].
  intros s Hs. exists (softmax_row self st s), (max_q self st s).
  split; [apply lookup_map_seq, Hs|].
  split; [unfold softmax_row; rewrite length_map, length_seq; reflexivity|].
  split; [apply max_q_spec; assumption|].
  split; [|split].
  - intros a Ha. unfold softmax_row. rewrite lookup_map_seq by exact Ha.
    reflexivity.
  - apply softmax_row_sum; assumption.
  - intros p. apply softmax_row_nonneg; assumption.
Qed.

Lemma max_ent_policy_is_softmax_witness :
  exists pi,
    get_next_policy (vi_one "max_ent" 1) st_one = Ok pi
    /\ length pi = 1%nat
    /\ forall s, (s < 1)%nat ->
         exists row m,
           pi !! s = Some row
           /\ length row = 1%nat
           /\ is_max_over 1 (Q_spec (vi_one "max_ent" 1) st_one s) m
           /\ (forall a, (a < 1)%nat ->
                 row !! a
                 = Some (exp ((Q_spec (vi_one "max_ent" 1) st_one s a - m) / 1)
                         / big_sum 1
                             (fun a' =>
                                exp ((Q_spec (vi_one "max_ent" 1) st_one s a'
                                      - m) / 1))))
           /\ np_sum row = 1
           /\ forall p, In p row -> 0 <= p.
Proof.
  apply (max_ent_policy_is_softmax (vi_one "max_ent" 1) st_one).
  - reflexivity.
  - repeat split.
  - simpl. lia.
  - simpl. lra.
Defined.

(** ** The greedy rows *)

Lemma alter_at_length {A : Type} (g : A -> A) (l : list A) (y : A)
    (r : list A) :
  alter g (length l) (l ++ y :: r) = l ++ g y :: r.
Proof.
  induction l as [|z l IH]; simpl; [reflexivity|].
  f_equal. exact IH.
Qed.

Lemma insert_zeros_one_hot (n k : nat) :
  (k < n)%nat -> <[k := 1]> (np_zeros n) = one_hot n k.
Proof.
  intros Hk. unfold np_zeros, one_hot. apply list_eq. intros i.
  destruct (Nat.lt_ge_cases i n) as [Hi|Hi].
  - rewrite lookup_map_seq by exact Hi.
    destruct (Nat.eqb_spec i k) as [->|Hne].
    + apply list_lookup_insert_eq. rewrite length_replicate. exact Hk.
    + rewrite list_lookup_insert_ne by congruence.
      apply lookup_replicate_2, Hi.
  - rewrite !lookup_ge_None_2; [reflexivity| |].
    + rewrite length_map, length_seq. exact Hi.
    + rewrite length_insert, length_replicate. exact Hi.
Qed.

Lemma get_next_policy_det_eq (self : ValueIteration) (st : store) :
  shapes_consistent self st ->
  (0 < shape1 (transitions (env self)))%nat ->
  policy_type self = "deterministic"%string ->
  get_next_policy self st
  = Ok (map (fun s => one_hot (shape1 (transitions (env self)))
                              (argmax_q self st s))
            (seq 0 (shape0 (transitions (env self))))).
Proof.
  intros Hshape Hact Hpt. unfold get_next_policy. rewrite Hpt.
  change (String.eqb "deterministic" "deterministic") with true. cbv iota.
  unfold np_zeros2. apply for_range_fill. intros s j Hsum.
  rewrite (fill_v_s_ok self st Hshape) by lia.
  cbn [mbind result_bind].
  destruct (argmax_q_spec self st Hact s) as [Hk (Hlt & _)].
  rewrite Hk. cbn [mbind result_bind]. f_equal.
  rewrite map_seq_snoc, <- app_assoc. simpl.
  rewrite <- (insert_zeros_one_hot _ _ Hlt).
  rewrite <- (alter_at_length
                (fun row => <[argmax_q self st s := 1]> row)
                (map _ (seq 0 s)) (np_zeros _) (replicate j _)).
  rewrite length_map, length_seq. reflexivity.
Qed.

Lemma get_next_policy_reads_values_only (self : ValueIteration)
    (st st' : store) :
  value_fun st' = value_fun st ->
  get_next_policy self st' = get_next_policy self st.
Proof.
  intros H. unfold get_next_policy, fill_v_s, q_value, get_values.
  rewrite H. reflexivity.
Qed.

(** C4: in deterministic mode, with consistent shapes and at least one
    action, [get_next_policy] returns S rows; the row of state s is 1 at
    the smallest action index k at which Q(s, .) is maximal and 0 at every
    other action.  The result depends on the store through the stored
    values only, so a repeated call on the same values returns the same
    rows. *)
Theorem deterministic_policy_one_hot_first_argmax (self : ValueIteration)
    (st : store) :
  policy_type self = "deterministic"%string ->
  shapes_consistent self st ->
  (0 < shape1 (transitions (env self)))%nat ->
  (exists pi,
     get_next_policy self st = Ok pi
     /\ length pi = shape0 (transitions (env self))
     /\ forall s, (s < shape0 (transitions (env self)))%nat ->
          exists row k,
            pi !! s = Some row
            /\ length row = shape1 (transitions (env self))
            /\ is_first_argmax (shape1 (transitions (env self)))
                 (Q_spec self st s) k
            /\ forall a, (a < shape1 (transitions (env self)))%nat ->
                 row !! a = Some (if Nat.eqb a k then 1 else 0))
  /\ forall st', value_fun st' = value_fun st ->
       get_next_policy self st' = get_next_policy self st.
Proof.
  intros Hpt Hshape Hact.
  split; [|intros st'; apply get_next_policy_reads_values_only].
  eexists. split; [apply get_next_policy_det_eq; assumption|].
  split; [rewrite length_map, length_seq; reflexivity|].
  intros s Hs.
  exists (one_hot (shape1 (transitions (env self))) (argmax_q self st s)),
         (argmax_q self st s).
  split; [rewrite lookup_map_seq by exact Hs; reflexivity|].
  split; [unfold one_hot; rewrite length_map, length_seq; reflexivity|].
  split; [apply argmax_q_spec; assumption|].
  intros a Ha. unfold one_hot. apply lookup_map_seq, Ha.
Qed.

(** ** The stopping rule *)

Lemma Rltb_true (x y : R) : Rltb x y = true <-> x < y.
Proof.
  unfold Rltb. destruct (Rlt_dec x y); split; intros; try assumption;
    try reflexivity; try discriminate; contradiction.
Qed.

Lemma py_div_ok (x y : R) : y <> 0 -> py_div x y = Ok (x / y).
Proof.
  intros Hy. unfold py_div. destruct (Req_dec_T y 0); [contradiction|].
  reflexivity.
Qed.

Lemma py_div_zero (x : R) : py_div x 0 = Raise ZeroDivisionError.
Proof.
  unfold py_div. destruct (Req_dec_T 0 0); [reflexivity|congruence].
Qed.

Lemma np_max_unique (l : list R) (m : R) :
  In m l -> (forall y, In y l -> y <= m) -> np_max l = Ok m.
Proof.
  intros Hin Hall.
  destruct (np_max_nonempty l) as [m' Hm'].
  { intros ->. destruct Hin. }
  destruct (np_max_spec l m' Hm') as [Hin' Hall'].
  rewrite Hm'. f_equal.
  specialize (Hall m' Hin'). specialize (Hall' m Hin). lra.
Qed.

Lemma in_flatten (t : ndarray3) (x : R) :
  In x (flatten t) <->
  exists s a s', (s < shape0 t)%nat /\ (a < shape1 t)%nat
                 /\ (s' < shape2 t)%nat /\ item t s a s' = x.
Proof.
  unfold flatten. rewrite in_flat_map. split.
  - intros (s & Hs & Hin). apply in_flat_map in Hin.
    destruct Hin as (a & Ha & Hin). apply in_map_iff in Hin.
    destruct Hin as (s' & Hx & Hs').
    apply in_seq in Hs, Ha, Hs'.
    exists s, a, s'. repeat split; (lia || assumption).
  - intros (s & a & s' & Hs & Ha & Hs' & Hx).
    exists s. split; [apply in_seq; lia|].
    apply in_flat_map. exists a. split; [apply in_seq; lia|].
    apply in_map_iff. exists s'. split; [exact Hx|apply in_seq; lia].
Qed.

Lemma rmax_ok (t : ndarray3) (m : R) :
  is_rmax t m -> np_max (np_abs (flatten t)) = Ok m.
Proof.
  intros [(s & a & s' & Hs & Ha & Hs' & Hm) Hall].
  apply np_max_unique; unfold np_abs.
  - apply in_map_iff. exists (item t s a s'). split; [exact Hm|].
    apply in_flatten. exists s, a, s'. auto.
  - intros y Hy. apply in_map_iff in Hy. destruct Hy as (x & <- & Hx).
    apply in_flatten in Hx.
    destruct Hx as (s1 & a1 & s1' & H1 & H2 & H3 & <-). auto.
Qed.

Lemma sup_change_ok (next_v v : list R) (M : R) :
  length next_v = length v ->
  is_max_over (length v) (fun s => Rabs (nth s next_v 0 - nth s v 0)) M ->
  (d ← np_sub (NdArray next_v) v; np_max (np_abs d)) = Ok M.
Proof.
  intros Hlen Hmax. simpl.
  rewrite broadcast_same_length by exact Hlen. cbn [mbind result_bind].
  rewrite (list_as_map_nth 0 next_v) at 1.
  rewrite (list_as_map_nth 0 v) at 1.
  rewrite Hlen, zip_with_map_same. unfold np_abs. rewrite map_map.
  assert (Hpos : (0 < length v)%nat).
  { destruct Hmax as [(a & Ha & _) _]. lia. }
  destruct (np_max_map_seq (length v)
              (fun s => Rabs (nth s next_v 0 - nth s v 0)) Hpos)
    as (m & Hm & Hmax').
  rewrite Hm. f_equal. eapply is_max_over_unique; eassumption.
Qed.

Lemma stop_divisors_nonzero (gamma : R) :
  0 < gamma < 1 -> 1 - gamma <> 0 /\ 2 * gamma / (1 - gamma) <> 0.
Proof.
  intros [H0 H1]. split; [lra|].
  assert (0 < 2 * gamma / (1 - gamma)); [|lra].
  apply Rdiv_lt_0_compat; lra.
Qed.

(** C3: for a discount strictly between 0 and 1, an array [next_v] as long
    as [v], M the largest |next_v(s) - v(s)| and Rm the largest
    |R(s,a,s')|, [_stop_condition] returns a boolean that is true exactly
    when M < precision / (2 gamma / (1 - gamma)) or
    gamma^itr * Rm / (1 - gamma) < precision: either condition suffices. *)
Theorem stop_condition_is_disjunction (self : ValueIteration) (itr0 : nat)
    (nv v : list R) (M Rm : R) :
  0 < discount (env self) < 1 ->
  length nv = length v ->
  is_max_over (length v) (fun s => Rabs (nth s nv 0 - nth s v 0)) M ->
  is_rmax (rewards (env self)) Rm ->
  exists b,
    _stop_condition self itr0 (NdArray nv) v = Ok b
    /\ (b = true <->
        M < precision self
            / (2 * discount (env self) / (1 - discount (env self)))
        \/ discount (env self) ^ itr0 * Rm / (1 - discount (env self))
           < precision self).
Proof.
  intros Hgamma Hlen Hmax Hrmax.
  destruct (stop_divisors_nonzero _ Hgamma) as [Hd1 Hd2].
  pose proof (sup_change_ok nv v M Hlen Hmax) as Hsup.
  unfold _stop_condition. rewrite (rmax_ok _ _ Hrmax).
  cbn [mbind result_bind] in *.
  destruct (np_sub (NdArray nv) v) as [d|e]; [|discriminate].
  cbn [mbind result_bind] in *. rewrite Hsup. cbn [mbind result_bind].
  rewrite !py_div_ok by assumption. cbn [mbind result_bind].
  rewrite !py_div_ok by assumption. cbn [mbind result_bind].
  eexists. split; [reflexivity|].
  rewrite orb_true_iff, !Rltb_true. reflexivity.
Qed.

Lemma stop_condition_is_disjunction_witness :
  exists b,
    _stop_condition (vi_one "deterministic" 1) 3 (NdArray [1]) [0] = Ok b
    /\ (b = true <->
        1 < 1 / 1000 / (2 * (1 / 2) / (1 - 1 / 2))
        \/ (1 / 2) ^ 3 * 1 / (1 - 1 / 2) < 1 / 1000).
Proof.
  apply (stop_condition_is_disjunction (vi_one "deterministic" 1) 3
           [1] [0] 1 1).
  - simpl. lra.
  - reflexivity.
  - split.
    + exists 0%nat. split; [simpl; lia|]. simpl.
      unfold Rabs. destruct (Rcase_abs (1 - 0)); lra.
    + intros a Ha. simpl in Ha. replace a with 0%nat by lia. simpl.
      unfold Rabs. destruct (Rcase_abs (1 - 0)); lra.
  - split.
    + exists 0%nat, 0%nat, 0%nat. simpl.
      repeat split; try lia.
      unfold Rabs. destruct (Rcase_abs 1); lra.
    + intros s a s' _ _ _. simpl.
      unfold Rabs. destruct (Rcase_abs 1); lra.
Defined.

Lemma np_max_raise (l : list R) (e : exn) :
  np_max l = Raise e -> e = ValueError.
Proof.
  destruct l; simpl; congruence.
Qed.

Lemma broadcast_raise (f : R -> R -> R) (x y : list R) (e : exn) :
  broadcast f x y = Raise e -> e = ValueError.
Proof.
  unfold broadcast. destruct (Nat.eqb (length x) (length y)); [discriminate|].
  destruct x as [|c [|c' x]], y as [|d [|d' y]]; congruence.
Qed.

Lemma np_sub_raise (x : pyval) (v : list R) (e : exn) :
  np_sub x v = Raise e -> e = ValueError.
Proof.
  destruct x; simpl; [discriminate|]. apply broadcast_raise.
Qed.

(** C10: when the discount is 0 the divisor 2 gamma / (1 - gamma) of the
    sup-norm threshold is 0, and [_stop_condition], once both maxima are
    computed, raises ZeroDivisionError; when the discount is strictly
    between 0 and 1 both divisors, 1 - gamma and 2 gamma / (1 - gamma), are
    non-zero and [_stop_condition] never raises ZeroDivisionError. *)
Theorem stop_condition_division_by_zero (self : ValueIteration) (itr0 : nat)
    (nv : pyval) (v : list R) :
  (discount (env self) = 0 ->
   forall rmax lhs,
     np_max (np_abs (flatten (rewards (env self)))) = Ok rmax ->
     (d ← np_sub nv v; np_max (np_abs d)) = Ok lhs ->
     2 * discount (env self) / (1 - discount (env self)) = 0
     /\ _stop_condition self itr0 nv v = Raise ZeroDivisionError)
  /\ (0 < discount (env self) < 1 ->
      1 - discount (env self) <> 0
      /\ 2 * discount (env self) / (1 - discount (env self)) <> 0
      /\ _stop_condition self itr0 nv v <> Raise ZeroDivisionError).
Proof.
  split.
  - intros Hzero rmax lhs Hrmax Hlhs.
    assert (Hk : 2 * discount (env self) / (1 - discount (env self)) = 0).
    { rewrite Hzero. unfold Rdiv. lra. }
    split; [exact Hk|].
    unfold _stop_condition. rewrite Hrmax. cbn [mbind result_bind] in *.
    destruct (np_sub nv v) as [d|e]; [|discriminate].
    cbn [mbind result_bind] in *. rewrite Hlhs. cbn [mbind result_bind].
    rewrite !py_div_ok by (rewrite Hzero; lra). cbn [mbind result_bind].
    rewrite Hk, py_div_zero. reflexivity.
  - intros Hgamma.
    destruct (stop_divisors_nonzero _ Hgamma) as [Hd1 Hd2].
    split; [exact Hd1|]. split; [exact Hd2|].
    unfold _stop_condition.
    destruct (np_max (np_abs (flatten (rewards (env self))))) as [rmax|e] eqn:E1;
      cbn [mbind result_bind].
    2: { apply np_max_raise in E1. congruence. }
    destruct (np_sub nv v) as [d|e] eqn:E2; cbn [mbind result_bind].
    2: { apply np_sub_raise in E2. congruence. }
    destruct (np_max (np_abs d)) as [lhs|e] eqn:E3; cbn [mbind result_bind].
    2: { apply np_max_raise in E3. congruence. }
    rewrite !py_div_ok by assumption. cbn [mbind result_bind].
    rewrite !py_div_ok by assumption. cbn [mbind result_bind].
    discriminate.
Qed.

Lemma stop_condition_division_by_zero_witness :
  (2 * 0 / (1 - 0) = 0
   /\ _stop_condition vi_zero_discount 0 (PyFloat 1000000) [0]
      = Raise ZeroDivisionError)
  /\ (1 - 1 / 2 <> 0
      /\ 2 * (1 / 2) / (1 - 1 / 2) <> 0
      /\ _stop_condition (vi_one "deterministic" 1) 0 (PyFloat 1000000) [0]
         <> Raise ZeroDivisionError).
Proof.
  split.
  - apply (proj1 (stop_condition_division_by_zero vi_zero_discount 0
                    (PyFloat 1000000) [0])
             eq_refl (Rabs 1) (Rabs (1000000 - 0)));
      reflexivity.
  - apply (proj2 (stop_condition_division_by_zero (vi_one "deterministic" 1) 0
                    (PyFloat 1000000) [0])).
    simpl. lra.
Defined.

Lemma get_next_values_deterministic_witness :
  exists next_v,
    get_next_values (vi_one "deterministic" 1) st_one = Ok next_v
    /\ length next_v = 1%nat
    /\ forall s, (s < 1)%nat ->
         exists m, next_v !! s = Some m
                   /\ is_max_over 1
                        (Q_spec (vi_one "deterministic" 1) st_one s) m.
Proof.
  apply (get_next_values_deterministic (vi_one "deterministic" 1) st_one).
  - reflexivity.
  - repeat split.
  - simpl. lia.
Defined.

Lemma deterministic_policy_one_hot_first_argmax_witness :
  (exists pi,
     get_next_policy vi_tie st_one = Ok pi
     /\ length pi = 1%nat
     /\ forall s, (s < 1)%nat ->
          exists row k,
            pi !! s = Some row
            /\ length row = 2%nat
            /\ is_first_argmax 2 (Q_spec vi_tie st_one s) k
            /\ forall a, (a < 2)%nat ->
                 row !! a = Some (if Nat.eqb a k then 1 else 0))
  /\ forall st', value_fun st' = value_fun st_one ->
       get_next_policy vi_tie st' = get_next_policy vi_tie st_one.
Proof.
  apply (deterministic_policy_one_hot_first_argmax vi_tie st_one).
  - reflexivity.
  - repeat split.
  - simpl. lia.
Defined.

(** On the tie example both actions have Q-value 1 and the returned row
    selects action 0. *)
Lemma get_next_policy_tie : get_next_policy vi_tie st_one = Ok [[1; 0]].
Proof.
  assert (Hshape : shapes_consistent vi_tie st_one) by (repeat split).
  rewrite get_next_policy_det_eq by (assumption || (simpl; lia) || reflexivity).
  simpl. do 3 f_equal. unfold argmax_q. simpl.
  destruct (Rlt_dec (Q_spec vi_tie st_one 0 0) (Q_spec vi_tie st_one 0 1))
    as [Hlt|_]; [|reflexivity].
  exfalso. revert Hlt. unfold Q_spec, big_sum, np_sum. simpl. lra.
Qed.

(** ** Where AssertionError can come from *)

Create HintDb noassert.

Lemma never_asserts_ok {A : Type} (a : A) : never_asserts (Ok a).
Proof. discriminate. Qed.

Lemma never_asserts_bind {A B : Type} (m : result A) (f : A -> result B) :
  never_asserts m -> (forall a, never_asserts (f a)) ->
  never_asserts (m ≫= f).
Proof.
  intros Hm Hf. destruct m as [a|e]; cbn [mbind result_bind].
  - apply Hf.
  - intros [= ->]. apply Hm. reflexivity.
Qed.

Lemma never_asserts_for_from {St : Type} (body : nat -> St -> result St)
    (n : nat) :
  (forall a st, never_asserts (body a st)) ->
  forall i st, never_asserts (for_from i n body st).
Proof.
  intros Hbody. induction n as [|n IH]; intros i st; simpl.
  - apply never_asserts_ok.
  - apply never_asserts_bind; [apply Hbody|]. intros st'. apply IH.
Qed.

Lemma never_asserts_for_range {St : Type} (body : nat -> St -> result St)
    (n : nat) (st : St) :
  (forall a st, never_asserts (body a st)) ->
  never_asserts (for_range n body st).
Proof.
  intros Hbody. apply never_asserts_for_from, Hbody.
Qed.

Lemma never_asserts_slice (t : ndarray3) (s a : nat) :
  never_asserts (slice t s a).
Proof.
  unfold slice. destruct (_ && _); discriminate.
Qed.

Lemma never_asserts_broadcast (f : R -> R -> R) (x y : list R) :
  never_asserts (broadcast f x y).
Proof.
  intros H. apply broadcast_raise in H. discriminate.
Qed.

Lemma never_asserts_np_max (l : list R) : never_asserts (np_max l).
Proof.
  intros H. apply np_max_raise in H. discriminate.
Qed.

Lemma never_asserts_np_argmax (l : list R) : never_asserts (np_argmax l).
Proof.
  destruct l; discriminate.
Qed.

Lemma never_asserts_np_sub (x : pyval) (v : list R) :
  never_asserts (np_sub x v).
Proof.
  intros H. apply np_sub_raise in H. discriminate.
Qed.

Lemma never_asserts_py_div (x y : R) : never_asserts (py_div x y).
Proof.
  unfold py_div. destruct (Req_dec_T y 0); discriminate.
Qed.

Lemma never_asserts_py_mod (x y : Z) : never_asserts (py_mod x y).
Proof.
  unfold py_mod. destruct (Z.eqb y 0); discriminate.
Qed.

#[local] Hint Resolve never_asserts_ok never_asserts_slice
  never_asserts_broadcast never_asserts_np_max never_asserts_np_argmax
  never_asserts_np_sub never_asserts_py_div never_asserts_py_mod : noassert.

Ltac no_assert :=
  repeat first
    [ apply never_asserts_for_range; intros
    | apply never_asserts_bind; [|intros]
    | solve [auto with noassert] ].

Lemma never_asserts_q_value (self : ValueIteration) (st : store) (s a : nat) :
  never_asserts (q_value self st s a).
Proof.
  unfold q_value. no_assert.
Qed.

#[local] Hint Resolve never_asserts_q_value : noassert.

Lemma never_asserts_fill_v_s (self : ValueIteration) (st : store)
    (n s : nat) :
  never_asserts (fill_v_s self st n s).
Proof.
  unfold fill_v_s. no_assert.
Qed.

#[local] Hint Resolve never_asserts_fill_v_s : noassert.

Lemma never_asserts_get_next_values (self : ValueIteration) (st : store) :
  never_asserts (get_next_values self st).
Proof.
  unfold get_next_values.
  destruct (String.eqb _ _); [|destruct (String.eqb _ _)]; no_assert.
Qed.

Lemma never_asserts_get_next_policy (self : ValueIteration) (st : store) :
  never_asserts (get_next_policy self st).
Proof.
  unfold get_next_policy.
  destruct (String.eqb _ _); [|destruct (String.eqb _ _)]; no_assert.
Qed.

Lemma never_asserts_stop_condition (self : ValueIteration) (itr0 : nat)
    (nv : pyval) (v : list R) :
  never_asserts (_stop_condition self itr0 nv v).
Proof.
  unfold _stop_condition. no_assert.
Qed.

#[local] Hint Resolve never_asserts_get_next_values
  never_asserts_get_next_policy never_asserts_stop_condition : noassert.

Lemma never_asserts_loop_guard (self : ValueIteration) (v : list R)
    (ls : loop_state) :
  never_asserts (loop_guard self v ls).
Proof.
  unfold loop_guard. no_assert.
Qed.

Lemma never_asserts_loop_body (self : ValueIteration)
    (rollout : Env -> list (list R) -> nat -> R) (ls : loop_state) :
  never_asserts (loop_body self rollout ls).
Proof.
  unfold loop_body. no_assert.
  destruct (Z.eqb _ 0); no_assert.
Qed.

Lemma train_loop_no_assert (self : ValueIteration)
    (rollout : Env -> list (list R) -> nat -> R) (v : list R) (fuel : nat) :
  forall ls, train_loop self rollout fuel v ls <> Raised AssertionError.
Proof.
  induction fuel as [|fuel IH]; intros ls; simpl; [discriminate|].
  pose proof (never_asserts_loop_guard self v ls) as Hg.
  destruct (loop_guard self v ls) as [[|]|e].
  - pose proof (never_asserts_loop_body self rollout ls) as Hb.
    destruct (loop_body self rollout ls) as [ls'|e]; [apply IH|].
    unfold never_asserts in Hb. congruence.
  - discriminate.
  - unfold never_asserts in Hg. congruence.
Qed.

Lemma train_no_assert (self : ValueIteration)
    (rollout : Env -> list (list R) -> nat -> R) (fuel : nat) (st : store) :
  train self rollout fuel st <> Raised AssertionError.
Proof.
  unfold train.
  pose proof (train_loop_no_assert self rollout (get_values st) fuel
                (train_start st)) as Hloop.
  destruct (train_loop self rollout fuel (get_values st) (train_start st))
    as [ls|e|]; [|congruence|discriminate].
  unfold train_finish.
  pose proof (never_asserts_get_next_policy self (ls_store ls)) as Hp.
  destruct (get_next_policy self (ls_store ls)) as [pi|e];
    cbn [mbind result_bind]; [discriminate|].
  unfold never_asserts in Hp. congruence.
Qed.

(** C8: the constructor raises AssertionError when [policy_type] is neither
    'deterministic' nor 'max_ent'; for either of the two it returns an
    object carrying that [policy_type], and none of [get_next_values],
    [get_next_policy], [_stop_condition] and [train] raises AssertionError
    on that object afterwards. *)
Theorem policy_type_checked_at_construction (env0 : Env) (precision0 : R)
    (log_itr0 render_itr0 : Z) (policy_type0 : string) (max_itr0 : Z)
    (render0 : bool) (num_rollouts0 : Z) (temperature0 : R) :
  (policy_type0 <> "deterministic"%string ->
   policy_type0 <> "max_ent"%string ->
   __init__ env0 precision0 log_itr0 render_itr0 policy_type0 max_itr0
     render0 num_rollouts0 temperature0 = Raise AssertionError)
  /\ (policy_type0 = "deterministic"%string
      \/ policy_type0 = "max_ent"%string ->
      exists self,
        __init__ env0 precision0 log_itr0 render_itr0 policy_type0 max_itr0
          render0 num_rollouts0 temperature0 = Ok self
        /\ policy_type self = policy_type0
        /\ forall st,
             get_next_values self st <> Raise AssertionError
             /\ get_next_policy self st <> Raise AssertionError
             /\ (forall itr0 nv v,
                   _stop_condition self itr0 nv v <> Raise AssertionError)
             /\ forall rollout fuel,
                  train self rollout fuel st <> Raised AssertionError).
Proof.
  unfold __init__. split.
  - intros H1 H2.
    apply String.eqb_neq in H1. apply String.eqb_neq in H2.
    rewrite H1, H2. reflexivity.
  - intros H.
    assert (Hb : String.eqb policy_type0 "deterministic"
                 || String.eqb policy_type0 "max_ent" = true).
    { apply orb_true_iff. rewrite !String.eqb_eq. exact H. }
    rewrite Hb. eexists. split; [reflexivity|].
    split; [reflexivity|]. intros st.
    split; [apply never_asserts_get_next_values|].
    split; [apply never_asserts_get_next_policy|].
    split; [intros; apply never_asserts_stop_condition|].
    intros; apply train_no_assert.
Qed.

Lemma policy_type_checked_at_construction_witness :
  __init__ env_one (1 / 1000) 1 2 "greedy" 50 true 20 1
  = Raise AssertionError
  /\ exists self,
       __init__ env_one (1 / 1000) 1 2 "max_ent" 50 true 20 1 = Ok self
       /\ policy_type self = "max_ent"%string
       /\ forall st,
            get_next_values self st <> Raise AssertionError
            /\ get_next_policy self st <> Raise AssertionError
            /\ (forall itr0 nv v,
                  _stop_condition self itr0 nv v <> Raise AssertionError)
            /\ forall rollout fuel,
                 train self rollout fuel st <> Raised AssertionError.
Proof.
  split.
  - apply (proj1 (policy_type_checked_at_construction env_one (1 / 1000)
                    1 2 "greedy" 50 true 20 1)); discriminate.
  - apply (proj2 (policy_type_checked_at_construction env_one (1 / 1000)
                    1 2 "max_ent" 50 true 20 1)).
    right. reflexivity.
Defined.

(** ** The training loop *)

Section TrainFacts.

Variable self : ValueIteration.
Variable rollout : Env -> list (list R) -> nat -> R.

Lemma loop_guard_true (v : list R) (ls : loop_state) :
  loop_guard self v ls = Ok true ->
  _stop_condition self (itr ls) (next_v ls) v = Ok false
  /\ (Z.of_nat (itr ls) < max_itr self)%Z.
Proof.
  unfold loop_guard.
  destruct (_stop_condition self (itr ls) (next_v ls) v) as [stop|e];
    cbn [mbind result_bind]; [|discriminate].
  intros [= H]. apply andb_true_iff in H. destruct H as [Hs Hlt].
  apply negb_true_iff in Hs. apply Z.ltb_lt in Hlt. subst. auto.
Qed.

Lemma loop_guard_false (v : list R) (ls : loop_state) :
  loop_guard self v ls = Ok false ->
  exists stop,
    _stop_condition self (itr ls) (next_v ls) v = Ok stop
    /\ (stop = true \/ (max_itr self <= Z.of_nat (itr ls))%Z).
Proof.
  unfold loop_guard.
  destruct (_stop_condition self (itr ls) (next_v ls) v) as [stop|e];
    cbn [mbind result_bind]; [|discriminate].
  intros [= H]. exists stop. split; [reflexivity|].
  apply andb_false_iff in H. destruct H as [Hs|Hlt].
  - left. apply negb_false_iff, Hs.
  - right. apply Z.ltb_ge, Hlt.
Qed.

(** One execution of the body adds one to the counter and updates the
    value container exactly once. *)
Lemma loop_body_effect (ls ls' : loop_state) :
  loop_body self rollout ls = Ok ls' ->
  itr ls' = S (itr ls)
  /\ value_updates (calls (ls_store ls'))
     = S (value_updates (calls (ls_store ls))).
Proof.
  unfold loop_body.
  destruct (py_mod (Z.of_nat (itr ls)) (log_itr self)) as [lg|e];
    cbn [mbind result_bind]; [|discriminate].
  destruct (py_mod (Z.of_nat (itr ls)) (render_itr self)) as [rd|e];
    cbn [mbind result_bind]; [|discriminate].
  destruct (Z.eqb lg 0).
  - destruct (get_next_policy self (ls_store ls)) as [pi|e];
      cbn [mbind result_bind]; [|discriminate].
    destruct (get_next_values self _) as [nv|e];
      cbn [mbind result_bind]; [|discriminate].
    intros [= <-]. simpl. auto.
  - cbn [mbind result_bind].
    destruct (get_next_values self _) as [nv|e];
      cbn [mbind result_bind]; [|discriminate].
    intros [= <-]. simpl. auto.
Qed.

Lemma train_loop_terminates (v : list R) (fuel : nat) :
  forall ls,
    (Z.to_nat (max_itr self - Z.of_nat (itr ls)) < fuel)%nat ->
    train_loop self rollout fuel v ls <> OutOfFuel.
Proof.
  induction fuel as [|fuel IH]; intros ls Hfuel; [lia|]. simpl.
  destruct (loop_guard self v ls) as [[|]|e] eqn:Hg; try discriminate.
  destruct (loop_body self rollout ls) as [ls'|e] eqn:Hb; [|discriminate].
  apply loop_guard_true in Hg. destruct Hg as [_ Hlt].
  apply loop_body_effect in Hb. destruct Hb as [Hitr _].
  apply IH. rewrite Hitr. lia.
Qed.

(** When the loop exits, it has executed the body some number [n] of times:
    the guard held before each execution and fails now. *)
Lemma train_loop_done (v : list R) (fuel : nat) :
  forall ls ls',
    train_loop self rollout fuel v ls = Done ls' ->
    exists n,
      run_body self rollout n ls = Ok ls'
      /\ itr ls' = (itr ls + n)%nat
      /\ value_updates (calls (ls_store ls'))
         = (value_updates (calls (ls_store ls)) + n)%nat
      /\ (forall k, (k < n)%nat ->
            exists lk, run_body self rollout k ls = Ok lk
                       /\ itr lk = (itr ls + k)%nat
                       /\ loop_guard self v lk = Ok true)
      /\ loop_guard self v ls' = Ok false.
Proof.
  induction fuel as [|fuel IH]; intros ls ls' Hrun; [discriminate|].
  simpl in Hrun.
  destruct (loop_guard self v ls) as [[|]|e] eqn:Hg; try discriminate.
  - destruct (loop_body self rollout ls) as [ls1|e] eqn:Hb; [|discriminate].
    destruct (IH ls1 ls' Hrun) as (n & Hn & Hitr & Hupd & Hpre & Hexit).
    destruct (loop_body_effect _ _ Hb) as [Hitr1 Hupd1].
    exists (S n). simpl. rewrite Hb. cbn [mbind result_bind].
    split; [exact Hn|]. split; [lia|]. split; [lia|].
    split; [|exact Hexit].
    intros [|k] Hk.
    + exists ls. simpl. split; [reflexivity|]. split; [lia|exact Hg].
    + destruct (Hpre k ltac:(lia)) as (lk & Hlk & Hitrk & Hgk).
      exists lk. simpl. rewrite Hb. cbn [mbind result_bind].
      split; [exact Hlk|]. split; [lia|exact Hgk].
  - injection Hrun as <-. exists 0%nat. simpl.
    split; [reflexivity|]. split; [lia|]. split; [lia|].
    split; [intros k Hk; lia|exact Hg].
Qed.

End TrainFacts.

(** ** On the intended inputs nothing raises *)

Lemma shapes_consistent_length (self : ValueIteration) (st st' : store) :
  shapes_consistent self st ->
  length (value_fun st') = shape0 (transitions (env self)) ->
  shapes_consistent self st'.
Proof.
  unfold shapes_consistent. intros (H1 & H2 & H3 & H4 & _) H5. auto.
Qed.

Lemma get_next_values_returns (self : ValueIteration) (st : store) :
  shapes_consistent self st ->
  (0 < shape1 (transitions (env self)))%nat ->
  policy_type self = "deterministic"%string
  \/ policy_type self = "max_ent"%string ->
  exists nv, get_next_values self st = Ok nv
             /\ length nv = shape0 (transitions (env self)).
Proof.
  intros Hshape Hact [Hpt|Hpt]; eexists.
  - split; [apply get_next_values_det_eq; assumption|].
    rewrite length_map, length_seq. reflexivity.
  - split; [apply get_next_values_soft_eq; assumption|].
    rewrite length_map, length_seq. reflexivity.
Qed.

Lemma get_next_policy_returns (self : ValueIteration) (st : store) :
  shapes_consistent self st ->
  (0 < shape1 (transitions (env self)))%nat ->
  policy_type self = "deterministic"%string
  \/ policy_type self = "max_ent"%string ->
  exists pi, get_next_policy self st = Ok pi.
Proof.
  intros Hshape Hact [Hpt|Hpt]; eexists.
  - apply get_next_policy_det_eq; assumption.
  - apply get_next_policy_soft_eq; assumption.
Qed.

Lemma np_max_abs_returns (l : list R) :
  (0 < length l)%nat -> exists m, np_max (np_abs l) = Ok m.
Proof.
  intros Hl. apply np_max_nonempty. destruct l; simpl in *; [lia|discriminate].
Qed.

Lemma flatten_nonempty (t : ndarray3) :
  (0 < shape0 t)%nat -> (0 < shape1 t)%nat -> (0 < shape2 t)%nat ->
  (0 < length (flatten t))%nat.
Proof.
  intros H0 H1 H2.
  assert (Hin : In (item t 0 0 0) (flatten t)).
  { apply in_flatten. exists 0%nat, 0%nat, 0%nat. auto. }
  destruct (flatten t); [destruct Hin|simpl; lia].
Qed.

Lemma stop_condition_returns (self : ValueIteration) (st : store)
    (itr0 : nat) (nv : pyval) (v : list R) :
  trainable self st ->
  length v = shape0 (transitions (env self)) ->
  match nv with
  | PyFloat _ => True
  | NdArray a => length a = shape0 (transitions (env self))
  end ->
  exists b, _stop_condition self itr0 nv v = Ok b.
Proof.
  intros (Hshape & HS & HA & Hgamma & _) Hv Hnv.
  destruct Hshape as (_ & H0 & H1 & H2 & _).
  destruct (stop_divisors_nonzero _ Hgamma) as [Hd1 Hd2].
  unfold _stop_condition.
  destruct (np_max_abs_returns (flatten (rewards (env self)))) as [rmax ->].
  { apply flatten_nonempty; lia. }
  cbn [mbind result_bind].
  assert (Hd : exists d, np_sub nv v = Ok d /\ (0 < length d)%nat).
  { destruct nv as [c|a]; simpl.
    - eexists. split; [reflexivity|]. rewrite length_map. lia.
    - rewrite broadcast_same_length by lia.
      eexists. split; [reflexivity|].
      rewrite length_zip_with, Hnv, Hv. lia. }
  destruct Hd as (d & -> & Hlen). cbn [mbind result_bind].
  destruct (np_max_abs_returns d Hlen) as [lhs ->].
  cbn [mbind result_bind].
  rewrite !py_div_ok by assumption. cbn [mbind result_bind].
  rewrite !py_div_ok by assumption. cbn [mbind result_bind].
  eexists. reflexivity.
Qed.

Section TrainReturns.

Variable self : ValueIteration.
Variable rollout : Env -> list (list R) -> nat -> R.
Variable st0 : store.
Hypothesis Hok : trainable self st0.

Lemma loop_body_returns (ls : loop_state) :
  loop_invariant self ls ->
  exists ls', loop_body self rollout ls = Ok ls' /\ loop_invariant self ls'.
Proof.
  intros [Hlen _].
  destruct Hok as (Hshape & HS & HA & Hgamma & Hlog & Hrender & Hmode).
  unfold loop_body, py_mod.
  apply Z.eqb_neq in Hlog, Hrender. rewrite Hlog, Hrender.
  cbn [mbind result_bind].
  assert (Hst : shapes_consistent self (ls_store ls)).
  { eapply shapes_consistent_length; eassumption. }
  destruct (Z.eqb (Z.modulo (Z.of_nat (itr ls)) (log_itr self)) 0).
  - destruct (get_next_policy_returns self _ Hst HA Hmode) as [pi ->].
    cbn [mbind result_bind fst snd].
    destruct (get_next_values_returns self
                (policy_update pi (ls_store ls))) as (nv & -> & Hnv);
      [eapply shapes_consistent_length; eassumption|assumption..|].
    cbn [mbind result_bind]. eexists. split; [reflexivity|].
    split; simpl; exact Hnv.
  - cbn [mbind result_bind fst snd].
    destruct (get_next_values_returns self (ls_store ls) Hst HA Hmode)
      as (nv & -> & Hnv).
    cbn [mbind result_bind]. eexists. split; [reflexivity|].
    split; simpl; exact Hnv.
Qed.

Lemma train_loop_returns (v : list R) (fuel : nat) :
  length v = shape0 (transitions (env self)) ->
  forall ls,
    loop_invariant self ls ->
    (Z.to_nat (max_itr self - Z.of_nat (itr ls)) < fuel)%nat ->
    exists ls', train_loop self rollout fuel v ls = Done ls'
                /\ loop_invariant self ls'.
Proof.
  intros Hv. induction fuel as [|fuel IH]; intros ls Hinv Hfuel; [lia|].
  simpl. unfold loop_guard at 1.
  destruct (stop_condition_returns self st0 (itr ls) (next_v ls) v Hok Hv)
    as [stop Hstop]; [apply Hinv|].
  rewrite Hstop. cbn [mbind result_bind].
  destruct (negb stop && Z.ltb (Z.of_nat (itr ls)) (max_itr self)) eqn:Hg.
  - destruct (loop_body_returns ls Hinv) as (ls1 & Hb & Hinv1).
    rewrite Hb. apply IH; [exact Hinv1|].
    apply loop_body_effect in Hb. destruct Hb as [Hitr _].
    apply andb_true_iff in Hg. destruct Hg as [_ Hlt].
    apply Z.ltb_lt in Hlt. rewrite Hitr. lia.
  - eexists. split; [reflexivity|exact Hinv].
Qed.

Lemma train_returns (fuel : nat) :
  (Z.to_nat (max_itr self) < fuel)%nat ->
  exists final, train self rollout fuel st0 = Done final.
Proof.
  intros Hfuel.
  pose proof Hok as (Hshape & HS & HA & Hgamma & Hlog & Hrender & Hmode).
  assert (Hlen : length (value_fun st0) = shape0 (transitions (env self))).
  { apply Hshape. }
  unfold train, get_values.
  destruct (train_loop_returns (value_fun st0) fuel Hlen (train_start st0))
    as (ls & -> & Hinv).
  { split; [exact Hlen|exact I]. }
  { simpl. lia. }
  unfold train_finish.
  destruct (get_next_policy_returns self (ls_store ls)) as [pi ->];
    [eapply shapes_consistent_length; [exact Hshape|apply Hinv]
    |assumption..|].
  cbn [mbind result_bind]. eexists. reflexivity.
Qed.

End TrainReturns.

(** C9: with more fuel than [max_itr], [train] never runs out of fuel (the
    loop terminates); when it returns, the loop body ran n times with
    n <= max(0, max_itr): before the k-th execution (k < n) the counter was
    k, [_stop_condition] was false and k < max_itr; at the exit the counter
    is n and [_stop_condition] is true or n >= max_itr; the value container
    was updated exactly n times; and the policy container finally holds
    [get_next_policy] of the final values (also when n = 0).  On trainable
    inputs [train] does return. *)
Theorem train_loop_bounded_then_final_policy (self : ValueIteration)
    (rollout : Env -> list (list R) -> nat -> R) (fuel : nat) (st : store) :
  (Z.to_nat (max_itr self) < fuel)%nat ->
  train self rollout fuel st <> OutOfFuel
  /\ (trainable self st ->
      exists final, train self rollout fuel st = Done final)
  /\ forall final,
       train self rollout fuel st = Done final ->
       exists n ls,
         run_body self rollout n (train_start st) = Ok ls
         /\ (Z.of_nat n <= Z.max 0 (max_itr self))%Z
         /\ (forall k, (k < n)%nat ->
               exists lk,
                 run_body self rollout k (train_start st) = Ok lk
                 /\ itr lk = k
                 /\ _stop_condition self k (next_v lk) (value_fun st)
                    = Ok false
                 /\ (Z.of_nat k < max_itr self)%Z)
         /\ (exists stop,
               _stop_condition self n (next_v ls) (value_fun st) = Ok stop
               /\ (stop = true \/ (max_itr self <= Z.of_nat n)%Z))
         /\ itr ls = n
         /\ value_updates (calls (ls_store final))
            = (value_updates (calls st) + n)%nat
         /\ value_fun (ls_store final) = value_fun (ls_store ls)
         /\ itr final = n
         /\ get_next_policy self (ls_store ls)
            = Ok (policy (ls_store final))
         /\ calls (ls_store final) = PolicyUpdate :: calls (ls_store ls).
Proof.
  intros Hfuel.
  pose proof (train_loop_terminates self rollout (value_fun st) fuel
                (train_start st)) as Hterm.
  specialize (Hterm ltac:(simpl; lia)).
  split; [|split].
  { unfold train, get_values.
    destruct (train_loop self rollout fuel (value_fun st) (train_start st))
      as [ls|e|]; [|discriminate|congruence].
    destruct (train_finish self ls); discriminate. }
  { intros Hok. apply train_returns; assumption. }
  intros final. unfold train, get_values.
  destruct (train_loop self rollout fuel (value_fun st) (train_start st))
    as [ls|e|] eqn:Hloop; [|discriminate..].
  unfold train_finish.
  destruct (get_next_policy self (ls_store ls)) as [pi|e] eqn:Hpi;
    cbn [mbind result_bind]; [|discriminate].
  intros [= <-].
  destruct (train_loop_done self rollout _ _ _ _ Hloop)
    as (n & Hn & Hitr & Hupd & Hpre & Hexit).
  simpl in Hitr, Hupd.
  exists n, ls. split; [exact Hn|].
  assert (Hbound : (Z.of_nat n <= Z.max 0 (max_itr self))%Z).
  { destruct n as [|n]; [lia|].
    destruct (Hpre n ltac:(lia)) as (lk & _ & Hk & Hg).
    apply loop_guard_true in Hg. destruct Hg as [_ Hlt].
    rewrite Hk in Hlt. simpl in Hlt. lia. }
  split; [exact Hbound|]. split.
  { intros k Hk. destruct (Hpre k Hk) as (lk & Hlk & Hitrk & Hg).
    simpl in Hitrk. apply loop_guard_true in Hg. rewrite Hitrk in Hg.
    exists lk. tauto. }
  split.
  { apply loop_guard_false in Hexit. rewrite Hitr in Hexit. exact Hexit. }
  split; [exact Hitr|]. simpl.
  split; [exact Hupd|]. split; [reflexivity|]. split; [exact Hitr|].
  split; [exact Hpi|reflexivity].
Qed.

Lemma train_loop_bounded_then_final_policy_witness :
  train (vi_one "deterministic" 1) (fun _ _ _ => 0) 51 st_one <> OutOfFuel
  /\ exists final n,
       train (vi_one "deterministic" 1) (fun _ _ _ => 0) 51 st_one
       = Done final
       /\ (Z.of_nat n <= 50)%Z
       /\ itr final = n
       /\ value_updates (calls (ls_store final)) = n
       /\ get_next_policy (vi_one "deterministic" 1)
            (value_fun_update (value_fun (ls_store final)) st_one)
          = Ok (policy (ls_store final)).
Proof.
  destruct (train_loop_bounded_then_final_policy
              (vi_one "deterministic" 1) (fun _ _ _ => 0) 51 st_one)
    as (Hfuel & Hret & Hspec).
  { simpl. lia. }
  split; [exact Hfuel|].
  destruct Hret as [final Hfinal].
  { unfold trainable. simpl.
    repeat split; (lia || lra || discriminate || (left; reflexivity)). }
  destruct (Hspec final Hfinal)
    as (n & ls & _ & Hn & _ & _ & _ & Hupd & Hval & Hitr & Hpi & _).
  exists final, n. split; [exact Hfinal|]. split; [exact Hn|].
  split; [exact Hitr|]. split; [exact Hupd|].
  rewrite <- Hpi. apply get_next_policy_reads_values_only.
  simpl. exact Hval.
Defined.

(** ** The low-temperature limit of the returned values *)

(** C7: on the one-state example (Q(0,0) = 1) the max-entropy branch of
    [get_next_values] returns [0] at every temperature while the
    deterministic branch returns [1], so as tau decreases to 0 the
    max-entropy value does not tend to the deterministic one. *)
Theorem max_ent_values_do_not_tend_to_max :
  (forall tau, get_next_values (vi_one "max_ent" tau) st_one = Ok [0])
  /\ get_next_values (vi_one "deterministic" 1) st_one = Ok [1]
  /\ ~ tends_to_at_zero
         (fun tau =>
            value_at (get_next_values (vi_one "max_ent" tau) st_one) 0)
         (value_at (get_next_values (vi_one "deterministic" 1) st_one) 0).
Proof.
  split; [exact get_next_values_one_soft|].
  split; [apply get_next_values_one_det|].
  intros Hlim. destruct (Hlim (1 / 2) ltac:(lra)) as (delta & Hdelta & Hnear).
  specialize (Hnear (delta / 2) ltac:(lra)).
  rewrite get_next_values_one_soft, get_next_values_one_det in Hnear.
  unfold value_at in Hnear. simpl in Hnear.
  revert Hnear. unfold Rabs. destruct (Rcase_abs (0 - 1)); lra.
Qed.

(** ** The high-temperature limit of the softmax rows *)

Lemma ratio_near_uniform (n b P x eps : R) :
  1 <= n -> 0 <= x < 1 / 2 -> 2 * x < eps ->
  1 - x <= b <= 1 -> n * (1 - x) <= P <= n ->
  Rabs (b / P - 1 / n) < eps.
Proof.
  intros Hn [Hx0 Hx1] Heps [Hb0 Hb1] [HP0 HP1].
  assert (HP : 0 < P) by nra.
  assert (Hn2 : n <= 2 * P) by nra.
  pose proof (Rinv_0_lt_compat P HP) as Hw.
  pose proof (Rinv_0_lt_compat n ltac:(lra)) as Hu.
  assert (HwP : / P * P = 1) by (apply Rinv_l; lra).
  assert (Hun : / n * n = 1) by (apply Rinv_l; lra).
  set (w := / P) in *. set (u := / n) in *.
  assert (Hu1 : u <= 1) by nra.
  assert (Hw2 : w <= 2 * u).
  { assert (w * (n * P) <= 2 * u * (n * P)); [|nra].
    replace (w * (n * P)) with (n * (w * P)) by ring.
    replace (2 * u * (n * P)) with (2 * P * (u * n)) by ring.
    rewrite HwP, Hun. lra. }
  replace (b / P - 1 / n) with ((n * b - P) * (u * w)).
  2: { unfold Rdiv. fold w u.
       replace ((n * b - P) * (u * w))
         with (b * w * (u * n) - u * (w * P)) by ring.
       rewrite HwP, Hun. ring. }
  assert (Huw : 0 <= u * w) by nra.
  assert (Hnxuw : n * x * (u * w) = x * w).
  { replace (n * x * (u * w)) with (x * w * (u * n)) by ring.
    rewrite Hun. ring. }
  assert (Hxw : x * w <= 2 * x) by nra.
  assert (H1 : (n * b - P) * (u * w) <= n * x * (u * w)).
  { apply Rmult_le_compat_r; [exact Huw|nra]. }
  assert (H2 : - (n * x * (u * w)) <= (n * b - P) * (u * w)).
  { replace (- (n * x * (u * w))) with ((- (n * x)) * (u * w)) by ring.
    apply Rmult_le_compat_r; [exact Huw|nra]. }
  apply Rabs_def1; lra.
Qed.

Lemma finite_upper_bound (n : nat) (f : nat -> R) :
  exists D, 0 <= D /\ forall a, (a < n)%nat -> f a <= D.
Proof.
  induction n as [|n (D & HD & Hall)].
  - exists 0. split; [lra|]. intros a Ha. lia.
  - exists (D + Rabs (f n)).
    pose proof (Rabs_pos (f n)) as Hpos. pose proof (Rle_abs (f n)) as Hle.
    split; [lra|]. intros a Ha.
    destruct (Nat.eq_dec a n) as [->|Hne]; [lra|].
    specialize (Hall a ltac:(lia)). lra.
Qed.

Lemma big_sum_ge_count (n : nat) (f : nat -> R) (c : R) :
  (forall a, (a < n)%nat -> c <= f a) -> INR n * c <= big_sum n f.
Proof.
  induction n as [|n IH]; intros Hf.
  - unfold big_sum. simpl. lra.
  - rewrite big_sum_S, S_INR. specialize (Hf n ltac:(lia)) as Hn.
    specialize (IH ltac:(intros a Ha; apply Hf; lia)). lra.
Qed.

Lemma nth_map_seq (f : nat -> R) (n s : nat) :
  (s < n)%nat -> nth s (map f (seq 0 n)) 0 = f s.
Proof.
  intros Hs. apply nth_lookup_Some with (d := 0), lookup_map_seq, Hs.
Qed.

Section HighTemperature.

Variable self : ValueIteration.
Variable st : store.
Hypothesis Hshape : shapes_consistent self st.
Hypothesis Hmode : policy_type self = "max_ent"%string.

Let num_states := shape0 (transitions (env self)).
Let num_actions := shape1 (transitions (env self)).

Variables s a : nat.
Hypothesis Hs : (s < num_states)%nat.
Hypothesis Ha : (a < num_actions)%nat.

Lemma softmax_entry (tau : R) :
  policy_at (get_next_policy (with_temperature self tau) st) s a
  = boltzmann (with_temperature self tau) st s a
    / partition (with_temperature self tau) st s.
Proof.
  assert (Hact : (0 < num_actions)%nat) by lia.
  rewrite (get_next_policy_soft_eq (with_temperature self tau) st Hshape
             Hact Hmode).
  unfold policy_at, result_get.
  rewrite (nth_lookup_Some _ s [] (softmax_row (with_temperature self tau) st s))
    by (apply lookup_map_seq, Hs).
  unfold softmax_row. apply nth_map_seq, Ha.
Qed.

(** As the temperature grows, every entry of the max-entropy row of a
    state tends to 1/A. *)
Lemma max_ent_policy_tends_to_uniform :
  tends_to_at_infinity
    (fun tau =>
       policy_at (get_next_policy (with_temperature self tau) st) s a)
    (1 / INR num_actions).
Proof.
  assert (Hact : (0 < num_actions)%nat) by lia.
  destruct (max_q_spec self st Hact s) as [_ [_ Hmax]].
  destruct (finite_upper_bound num_actions
              (fun a' => max_q self st s - Q_spec self st s a'))
    as (D & HD & Hbound).
  intros eps0 Heps.
  exists (1 + 2 * D + 2 * D / eps0). split.
  { assert (0 <= 2 * D / eps0); [|lra].
    apply Rle_mult_inv_pos; lra. }
  intros tau Htau. rewrite softmax_entry.
  assert (Hq : 0 <= 2 * D / eps0) by (apply Rle_mult_inv_pos; lra).
  assert (Htau0 : 0 < tau) by lra.
  pose proof (Rinv_0_lt_compat tau Htau0) as Hinv.
  assert (Hit : / tau * tau = 1) by (apply Rinv_l; lra).
  set (x := D / tau).
  assert (Hx0 : 0 <= x) by (apply Rle_mult_inv_pos; lra).
  assert (Hxt : x * tau = D).
  { unfold x, Rdiv. rewrite Rmult_assoc, Hit. ring. }
  assert (Hx1 : x < 1 / 2) by nra.
  assert (Hx2 : 2 * x < eps0).
  { assert (Hqe : 2 * D / eps0 * eps0 = 2 * D).
    { unfold Rdiv. rewrite Rmult_assoc, Rinv_l by lra. ring. }
    assert (2 * D < eps0 * tau) by nra. nra. }
  assert (Hterm : forall a', (a' < num_actions)%nat ->
            1 - x <= boltzmann (with_temperature self tau) st s a' <= 1).
  { intros a' Ha'. unfold boltzmann.
    change (Q_spec (with_temperature self tau) st s a')
      with (Q_spec self st s a').
    change (max_q (with_temperature self tau) st s) with (max_q self st s).
    change (temperature (with_temperature self tau)) with tau.
    specialize (Hmax a' Ha'). specialize (Hbound a' Ha'). simpl in Hbound.
    set (y := (Q_spec self st s a' - max_q self st s) / tau).
    assert (Hyt : y * tau = Q_spec self st s a' - max_q self st s).
    { unfold y, Rdiv. rewrite Rmult_assoc, Hit. ring. }
    assert (Hy0 : y <= 0) by nra.
    assert (Hyx : - x <= y) by nra.
    pose proof (exp_ineq1_le y) as Hexp.
    pose proof (exp_le_1 y Hy0) as Hle. lra. }
  apply ratio_near_uniform with (x := x).
  - change 1 with (INR 1). apply le_INR. lia.
  - lra.
  - exact Hx2.
  - apply Hterm, Ha.
  - unfold partition.
    change (shape1 (transitions (env (with_temperature self tau))))
      with num_actions.
    split.
    + apply big_sum_ge_count. intros a' Ha'. apply Hterm, Ha'.
    + apply big_sum_le_count. intros a' Ha'. apply Hterm, Ha'.
Qed.

End HighTemperature.

(** ** More on the max-entropy branches *)

Lemma big_sum_ext (n : nat) (f g : nat -> R) :
  (forall a, (a < n)%nat -> f a = g a) -> big_sum n f = big_sum n g.
Proof.
  induction n as [|n IH]; intros Hfg; [reflexivity|].
  rewrite !big_sum_S, IH; [|intros a Ha; apply Hfg; lia].
  rewrite Hfg by lia. reflexivity.
Qed.

Lemma big_sum_scale_r (n : nat) (f : nat -> R) (c : R) :
  big_sum n (fun a => f a * c) = big_sum n f * c.
Proof.
  induction n as [|n IH].
  - unfold big_sum. simpl. lra.
  - rewrite !big_sum_S, IH. lra.
Qed.

Lemma big_sum_pos (n : nat) (f : nat -> R) :
  (0 < n)%nat -> (forall a, (a < n)%nat -> 0 < f a) -> 0 < big_sum n f.
Proof.
  intros Hn Hf.
  pose proof (big_sum_ge_term n f 0 ltac:(intros a Ha; left; apply Hf, Ha) Hn).
  specialize (Hf 0%nat Hn). lra.
Qed.

Lemma big_sum_const (n : nat) (c : R) :
  big_sum n (fun _ => c) = INR n * c.
Proof.
  induction n as [|n IH].
  - unfold big_sum. simpl. lra.
  - rewrite big_sum_S, S_INR, IH. lra.
Qed.

Section SoftmaxShift.

Variable self : ValueIteration.
Variable st : store.

Let num_actions := shape1 (transitions (env self)).

Hypothesis Hactions : (0 < num_actions)%nat.
Hypothesis Htemp : 0 < temperature self.

(** sum_a exp(Q(s,a) / tau), the unshifted normalizer. *)
Let plain (s : nat) : R :=
  big_sum num_actions
    (fun a => exp (Q_spec self st s a / temperature self)).

Lemma boltzmann_factor (s a : nat) :
  boltzmann self st s a
  = exp (Q_spec self st s a / temperature self)
    * exp (- max_q self st s / temperature self).
Proof.
  unfold boltzmann. rewrite <- exp_plus. f_equal. unfold Rdiv. ring.
Qed.

Lemma partition_factor (s : nat) :
  partition self st s
  = plain s * exp (- max_q self st s / temperature self).
Proof.
  unfold partition, plain. fold num_actions.
  rewrite <- big_sum_scale_r. apply big_sum_ext. intros a _.
  apply boltzmann_factor.
Qed.

Lemma plain_pos (s : nat) : 0 < plain s.
Proof.
  apply big_sum_pos; [exact Hactions|]. intros a _. apply exp_pos.
Qed.

Lemma soft_value_unshifted (s : nat) :
  soft_value self st s
  = temperature self * ln (plain s) - max_q self st s.
Proof.
  unfold soft_value. rewrite partition_factor.
  rewrite ln_mult by (apply plain_pos || apply exp_pos).
  rewrite ln_exp. field. lra.
Qed.

Lemma softmax_unshifted (s a : nat) :
  boltzmann self st s a / partition self st s
  = exp (Q_spec self st s a / temperature self) / plain s.
Proof.
  rewrite partition_factor, boltzmann_factor.
  pose proof (plain_pos s). pose proof (exp_pos (- max_q self st s / temperature self)).
  field. split; lra.
Qed.

End SoftmaxShift.

(** X1: in max-entropy mode (consistent shapes, at least one action,
    positive temperature) the entry of [get_next_values] for state s is
    tau * ln(sum_a exp(Q(s,a) / tau)) - max_a Q(s,a): the soft-max free
    energy of the Q-values, less their maximum. *)
Theorem max_ent_values_are_free_energy_minus_max (self : ValueIteration)
    (st : store) :
  policy_type self = "max_ent"%string ->
  shapes_consistent self st ->
  (0 < shape1 (transitions (env self)))%nat ->
  0 < temperature self ->
  exists next_v,
    get_next_values self st = Ok next_v
    /\ forall s, (s < shape0 (transitions (env self)))%nat ->
         exists m,
           is_max_over (shape1 (transitions (env self))) (Q_spec self st s) m
           /\ next_v !! s
              = Some (temperature self
                      * ln (big_sum (shape1 (transitions (env self)))
                              (fun a => exp (Q_spec self st s a
                                             / temperature self)))
                      - m).
Proof.
  intros Hmode Hshape Hact Htemp.
  exists (map (soft_value self st) (seq 0 (shape0 (transitions (env self))))).
  split; [apply get_next_values_soft_eq; assumption|].
  intros s Hs. exists (max_q self st s).
  split; [apply max_q_spec; assumption|].
  rewrite lookup_map_seq by exact Hs.
  rewrite soft_value_unshifted by assumption. reflexivity.
Qed.

Lemma max_ent_values_are_free_energy_minus_max_witness :
  exists next_v,
    get_next_values (vi_one "max_ent" 1) st_one = Ok next_v
    /\ forall s, (s < 1)%nat ->
         exists m,
           is_max_over 1 (Q_spec (vi_one "max_ent" 1) st_one s) m
           /\ next_v !! s
              = Some (1 * ln (big_sum 1
                                (fun a =>
                                   exp (Q_spec (vi_one "max_ent" 1) st_one s a
                                        / 1)))
                      - m).
Proof.
  apply (max_ent_values_are_free_energy_minus_max (vi_one "max_ent" 1) st_one).
  - reflexivity.
  - repeat split.
  - simpl. lia.
  - simpl. lra.
Defined.

(** X2: in max-entropy mode (same preconditions) the entry of
    [get_next_policy] for state s and action a is
    exp(Q(s,a) / tau) / sum_a' exp(Q(s,a') / tau): subtracting the row
    maximum leaves the returned probabilities unchanged. *)
Theorem max_ent_policy_is_plain_softmax (self : ValueIteration) (st : store) :
  policy_type self = "max_ent"%string ->
  shapes_consistent self st ->
  (0 < shape1 (transitions (env self)))%nat ->
  0 < temperature self ->
  exists pi,
    get_next_policy self st = Ok pi
    /\ forall s a,
         (s < shape0 (transitions (env self)))%nat ->
         (a < shape1 (transitions (env self)))%nat ->
         exists row,
           pi !! s = Some row
           /\ row !! a
              = Some (exp (Q_spec self st s a / temperature self)
                      / big_sum (shape1 (transitions (env self)))
                          (fun a' => exp (Q_spec self st s a'
                                          / temperature self))).
Proof.
  intros Hmode Hshape Hact Htemp.
  exists (map (softmax_row self st) (seq 0 (shape0 (transitions (env self))))).
  split; [apply get_next_policy_soft_eq; assumption|].
  intros s a Hs Ha. exists (softmax_row self st s).
  split; [apply lookup_map_seq, Hs|].
  unfold softmax_row. rewrite lookup_map_seq by exact Ha.
  rewrite softmax_unshifted by assumption. reflexivity.
Qed.

Lemma max_ent_policy_is_plain_softmax_witness :
  exists pi,
    get_next_policy (vi_one "max_ent" 1) st_one = Ok pi
    /\ forall s a, (s < 1)%nat -> (a < 1)%nat ->
         exists row,
           pi !! s = Some row
           /\ row !! a
              = Some (exp (Q_spec (vi_one "max_ent" 1) st_one s a / 1)
                      / big_sum 1
                          (fun a' =>
                             exp (Q_spec (vi_one "max_ent" 1) st_one s a'
                                  / 1))).
Proof.
  apply (max_ent_policy_is_plain_softmax (vi_one "max_ent" 1) st_one).
  - reflexivity.
  - repeat split.
  - simpl. lia.
  - simpl. lra.
Defined.


Lemma boltzmann_at_max (self : ValueIteration) (st : store) (s k : nat) :
  Q_spec self st s k = max_q self st s -> boltzmann self st s k = 1.
Proof.
  intros Hk. unfold boltzmann. rewrite Hk.
  replace ((max_q self st s - max_q self st s) / temperature self)
    with 0 by (unfold Rdiv; lra).
  apply exp_0.
Qed.



(** X4: in max-entropy mode (same preconditions), at a state whose actions
    all have the same Q-value, [get_next_policy] returns the uniform row
    (every entry 1/A) and [get_next_values] returns tau * ln(A), the upper
    end of its range. *)
Theorem max_ent_equal_q_is_uniform (self : ValueIteration) (st : store)
    (s : nat) :
  policy_type self = "max_ent"%string ->
  shapes_consistent self st ->
  (0 < shape1 (transitions (env self)))%nat ->
  0 < temperature self ->
  (s < shape0 (transitions (env self)))%nat ->
  (forall a, (a < shape1 (transitions (env self)))%nat ->
             Q_spec self st s a = Q_spec self st s 0) ->
  exists next_v pi row,
    get_next_values self st = Ok next_v
    /\ get_next_policy self st = Ok pi
    /\ next_v !! s
       = Some (temperature self * ln (INR (shape1 (transitions (env self)))))
    /\ pi !! s = Some row
    /\ forall a, (a < shape1 (transitions (env self)))%nat ->
         row !! a = Some (1 / INR (shape1 (transitions (env self)))).
Proof.
  intros Hmode Hshape Hact Htemp Hs Heq.
  destruct (max_q_spec self st Hact s) as [_ Hmax].
  assert (Hone : forall a, (a < shape1 (transitions (env self)))%nat ->
                   boltzmann self st s a = 1).
  { intros a Ha. apply boltzmann_at_max.
    eapply is_max_over_unique; [|exact Hmax]. split.
    - exists a. auto.
    - intros b Hb. rewrite (Heq a Ha), (Heq b Hb). lra. }
  assert (HP : partition self st s = INR (shape1 (transitions (env self)))).
  { unfold partition.
    rewrite (big_sum_ext _ _ (fun _ => 1) Hone), big_sum_const. lra. }
  exists (map (soft_value self st) (seq 0 (shape0 (transitions (env self))))),
         (map (softmax_row self st) (seq 0 (shape0 (transitions (env self))))),
         (softmax_row self st s).
  split; [apply get_next_values_soft_eq; assumption|].
  split; [apply get_next_policy_soft_eq; assumption|].
  split; [|split].
  - rewrite lookup_map_seq by exact Hs. unfold soft_value.
    rewrite HP. f_equal. lra.
  - apply lookup_map_seq, Hs.
  - intros a Ha. unfold softmax_row. rewrite lookup_map_seq by exact Ha.
    rewrite HP, (Hone a Ha). reflexivity.
Qed.

Lemma max_ent_equal_q_is_uniform_witness :
  exists next_v pi row,
    get_next_values vi_tie_soft st_one = Ok next_v
    /\ get_next_policy vi_tie_soft st_one = Ok pi
    /\ next_v !! 0%nat = Some (1 * ln (INR 2))
    /\ pi !! 0%nat = Some row
    /\ forall a, (a < 2)%nat -> row !! a = Some (1 / INR 2).
Proof.
  apply (max_ent_equal_q_is_uniform vi_tie_soft st_one 0).
  - reflexivity.
  - repeat split.
  - simpl. lia.
  - simpl. lra.
  - simpl. lia.
  - intros a Ha. reflexivity.
Defined.

(** ** The deterministic backup as an operator on the values *)

Lemma big_sum_le (n : nat) (f g : nat -> R) :
  (forall a, (a < n)%nat -> f a <= g a) -> big_sum n f <= big_sum n g.
Proof.
  induction n as [|n IH]; intros Hfg; [unfold big_sum; simpl; lra|].
  rewrite !big_sum_S. specialize (Hfg n ltac:(lia)) as Hn.
  specialize (IH ltac:(intros a Ha; apply Hfg; lia)). lra.
Qed.

Lemma big_sum_plus (n : nat) (f g : nat -> R) :
  big_sum n (fun a => f a + g a) = big_sum n f + big_sum n g.
Proof.
  induction n as [|n IH].
  - unfold big_sum. simpl. lra.
  - rewrite !big_sum_S, IH. lra.
Qed.

Lemma Rabs_bounds (x a : R) : Rabs x <= a -> - a <= x <= a.
Proof.
  intros H. pose proof (Rle_abs x) as H1. pose proof (Rle_abs (- x)) as H2.
  rewrite Rabs_Ropp in H2. lra.
Qed.

Lemma is_max_over_shift (n : nat) (f g : nat -> R) (m m' c : R) :
  is_max_over n f m -> is_max_over n g m' ->
  (forall a, (a < n)%nat -> f a <= g a + c) -> m <= m' + c.
Proof.
  intros [(a & Ha & <-) _] [_ Hg] Hfg.
  specialize (Hfg a Ha). specialize (Hg a Ha). lra.
Qed.

Section Operator.

Variable self : ValueIteration.
Variables st st' : store.
Hypothesis Hshape : shapes_consistent self st.
Hypothesis Hshape' : shapes_consistent self st'.
Hypothesis Hgamma : 0 <= discount (env self).

Let num_states := shape0 (transitions (env self)).
Let num_actions := shape1 (transitions (env self)).

(** Q under [st] exceeds Q under [st'] by at most gamma * M * sum_s' T when
    the stored values exceed each other by at most M. *)
Lemma Q_spec_upper (s a : nat) (M : R) :
  (forall s', (s' < num_states)%nat ->
              0 <= item (transitions (env self)) s a s') ->
  (forall s', (s' < num_states)%nat ->
              nth s' (value_fun st) 0 <= nth s' (value_fun st') 0 + M) ->
  Q_spec self st s a
  <= Q_spec self st' s a
     + discount (env self) * M
       * big_sum num_states (item (transitions (env self)) s a).
Proof.
  intros HT HV. unfold Q_spec. fold num_states.
  rewrite (Rmult_comm (discount (env self) * M)).
  rewrite <- big_sum_scale_r, <- big_sum_plus.
  apply big_sum_le. intros s' Hs'.
  specialize (HT s' Hs'). specialize (HV s' Hs').
  set (t := item (transitions (env self)) s a s') in *.
  set (r := item (rewards (env self)) s a s').
  assert (discount (env self) * nth s' (value_fun st) 0
          <= discount (env self) * nth s' (value_fun st') 0
             + discount (env self) * M) by nra.
  nra.
Qed.

End Operator.

Lemma nth_values_det (self : ValueIteration) (st : store) (s : nat) :
  (s < shape0 (transitions (env self)))%nat ->
  nth s (map (max_q self st) (seq 0 (shape0 (transitions (env self))))) 0
  = max_q self st s.
Proof.
  apply nth_map_seq.
Qed.



(** X6: in deterministic mode, with a transition tensor without negative
    entries and a discount >= 0, [get_next_values] is monotone: if one
    value array is below another at every state, so are the results. *)
Theorem deterministic_backup_monotone (self : ValueIteration)
    (st st' : store) :
  policy_type self = "deterministic"%string ->
  shapes_consistent self st ->
  shapes_consistent self st' ->
  (0 < shape1 (transitions (env self)))%nat ->
  nonneg_tensor (transitions (env self)) ->
  0 <= discount (env self) ->
  (forall s, (s < shape0 (transitions (env self)))%nat ->
             nth s (value_fun st) 0 <= nth s (value_fun st') 0) ->
  exists nv nv',
    get_next_values self st = Ok nv
    /\ get_next_values self st' = Ok nv'
    /\ forall s, (s < shape0 (transitions (env self)))%nat ->
         nth s nv 0 <= nth s nv' 0.
Proof.
  intros Hpt Hshape Hshape' Hact Hnn Hgamma Hle.
  exists (map (max_q self st) (seq 0 (shape0 (transitions (env self))))),
         (map (max_q self st') (seq 0 (shape0 (transitions (env self))))).
  split; [apply get_next_values_det_eq; assumption|].
  split; [apply get_next_values_det_eq; assumption|].
  intros s Hs. rewrite !nth_values_det by exact Hs.
  destruct (max_q_spec self st Hact s) as [_ Hm].
  destruct (max_q_spec self st' Hact s) as [_ Hm'].
  pose proof Hshape as (H2 & _).
  replace (max_q self st' s) with (max_q self st' s + 0) by lra.
  eapply is_max_over_shift; [exact Hm|exact Hm'|]. intros a Ha.
  pose proof (Q_spec_upper self st st' Hgamma s a 0) as HQ.
  rewrite Rmult_0_r, Rmult_0_l in HQ. apply HQ.
  - intros s' Hs'. apply Hnn; try assumption. rewrite H2. exact Hs'.
  - intros s' Hs'. specialize (Hle s' Hs'). lra.
Qed.

Lemma deterministic_backup_monotone_witness :
  exists nv nv',
    get_next_values (vi_one "deterministic" 1) st_one = Ok nv
    /\ get_next_values (vi_one "deterministic" 1) (store_of [1]) = Ok nv'
    /\ forall s, (s < 1)%nat -> nth s nv 0 <= nth s nv' 0.
Proof.
  apply (deterministic_backup_monotone (vi_one "deterministic" 1)
           st_one (store_of [1])).
  - reflexivity.
  - repeat split.
  - repeat split.
  - simpl. lia.
  - intros s a s' _ _ _. simpl. lra.
  - simpl. lra.
  - intros s Hs. simpl in Hs. replace s with 0%nat by lia. simpl. lra.
Defined.

Lemma Q_spec_bounded (self : ValueIteration) (st : store) (s a : nat)
    (Rm B : R) :
  shapes_consistent self st ->
  stochastic (transitions (env self)) ->
  0 <= discount (env self) ->
  (s < shape0 (transitions (env self)))%nat ->
  (a < shape1 (transitions (env self)))%nat ->
  (forall s', (s' < shape0 (transitions (env self)))%nat ->
              Rabs (item (rewards (env self)) s a s') <= Rm) ->
  (forall s', (s' < shape0 (transitions (env self)))%nat ->
              Rabs (nth s' (value_fun st) 0) <= B) ->
  - (Rm + discount (env self) * B) <= Q_spec self st s a
  <= Rm + discount (env self) * B.
Proof.
  intros Hshape Hstoch Hgamma Hs Ha HR HV.
  pose proof Hshape as (H2 & _).
  destruct (Hstoch s a Hs Ha) as [Hnn Hone]. rewrite H2 in Hnn, Hone.
  set (c := Rm + discount (env self) * B).
  assert (Hterm : forall s', (s' < shape0 (transitions (env self)))%nat ->
            - (item (transitions (env self)) s a s' * c)
            <= item (transitions (env self)) s a s'
               * (item (rewards (env self)) s a s'
                  + discount (env self) * nth s' (value_fun st) 0)
            <= item (transitions (env self)) s a s' * c).
  { intros s' Hs'. specialize (Hnn s' Hs').
    specialize (HR s' Hs'). specialize (HV s' Hs').
    apply Rabs_bounds in HR. apply Rabs_bounds in HV.
    assert (- (discount (env self) * B)
            <= discount (env self) * nth s' (value_fun st) 0
            <= discount (env self) * B) by nra.
    unfold c. split; nra. }
  assert (Hc : big_sum (shape0 (transitions (env self)))
                 (fun s' => item (transitions (env self)) s a s' * c) = c).
  { rewrite big_sum_scale_r, Hone. lra. }
  unfold Q_spec. split.
  - rewrite <- Hc at 1.
    replace (- big_sum (shape0 (transitions (env self)))
                 (fun s' => item (transitions (env self)) s a s' * c))
      with (big_sum (shape0 (transitions (env self)))
              (fun s' => item (transitions (env self)) s a s' * (- c))).
    + apply big_sum_le. intros s' Hs'. specialize (Hterm s' Hs'). lra.
    + rewrite !big_sum_scale_r. lra.
  - rewrite <- Hc at 1. apply big_sum_le. intros s' Hs'. apply Hterm, Hs'.
Qed.

(** X7: in deterministic mode, with a stochastic transition tensor, a
    discount >= 0, rewards bounded by Rm in absolute value and stored
    values bounded by B, every entry of [get_next_values] is bounded by
    Rm + gamma * B; so for gamma < 1 the bound Rm / (1 - gamma) on the
    values is kept by the backup. *)
Theorem deterministic_backup_bounded (self : ValueIteration) (st : store)
    (Rm B : R) :
  policy_type self = "deterministic"%string ->
  shapes_consistent self st ->
  (0 < shape1 (transitions (env self)))%nat ->
  stochastic (transitions (env self)) ->
  0 <= discount (env self) ->
  (forall s a s', (s < shape0 (transitions (env self)))%nat ->
                  (a < shape1 (transitions (env self)))%nat ->
                  (s' < shape0 (transitions (env self)))%nat ->
                  Rabs (item (rewards (env self)) s a s') <= Rm) ->
  (forall s, (s < shape0 (transitions (env self)))%nat ->
             Rabs (nth s (value_fun st) 0) <= B) ->
  exists nv,
    get_next_values self st = Ok nv
    /\ (forall s, (s < shape0 (transitions (env self)))%nat ->
          Rabs (nth s nv 0) <= Rm + discount (env self) * B)
    /\ (discount (env self) < 1 ->
        B = Rm / (1 - discount (env self)) ->
        forall s, (s < shape0 (transitions (env self)))%nat ->
          Rabs (nth s nv 0) <= Rm / (1 - discount (env self))).
Proof.
  intros Hpt Hshape Hact Hstoch Hgamma HR HV.
  exists (map (max_q self st) (seq 0 (shape0 (transitions (env self))))).
  split; [apply get_next_values_det_eq; assumption|].
  assert (Hbound : forall s, (s < shape0 (transitions (env self)))%nat ->
            Rabs (nth s (map (max_q self st)
                           (seq 0 (shape0 (transitions (env self))))) 0)
            <= Rm + discount (env self) * B).
  { intros s Hs. rewrite nth_values_det by exact Hs.
    destruct (max_q_spec self st Hact s) as [_ [(a & Ha & <-) _]].
    apply Rabs_le.
    apply (Q_spec_bounded self st s a Rm B); try assumption.
    intros s' Hs'. apply HR; assumption. }
  split; [exact Hbound|].
  intros Hlt HB s Hs. specialize (Hbound s Hs).
  replace (Rm / (1 - discount (env self)))
    with (Rm + discount (env self) * B); [exact Hbound|].
  rewrite HB. field. lra.
Qed.

Lemma deterministic_backup_bounded_witness :
  exists nv,
    get_next_values (vi_one "deterministic" 1) st_one = Ok nv
    /\ (forall s, (s < 1)%nat -> Rabs (nth s nv 0) <= 1 + 1 / 2 * 2)
    /\ (1 / 2 < 1 -> 2 = 1 / (1 - 1 / 2) ->
        forall s, (s < 1)%nat -> Rabs (nth s nv 0) <= 1 / (1 - 1 / 2)).
Proof.
  apply (deterministic_backup_bounded (vi_one "deterministic" 1) st_one 1 2).
  - reflexivity.
  - repeat split.
  - simpl. lia.
  - intros s a _ _. split.
    + intros s' _. simpl. lra.
    + unfold big_sum, np_sum. simpl. lra.
  - simpl. lra.
  - intros s a s' _ _ _. simpl.
    unfold Rabs. destruct (Rcase_abs 1); lra.
  - intros s Hs. simpl in Hs. replace s with 0%nat by lia. simpl.
    unfold Rabs. destruct (Rcase_abs 0); lra.
Defined.

(** ** Values and greedy policy together *)

(** X8: in deterministic mode (consistent shapes, at least one action), for
    every state s the action that [get_next_policy] marks with 1 has a
    Q-value equal to the entry of [get_next_values] for s: the greedy
    policy attains the backed-up value. *)
Theorem greedy_policy_attains_next_value (self : ValueIteration)
    (st : store) :
  policy_type self = "deterministic"%string ->
  shapes_consistent self st ->
  (0 < shape1 (transitions (env self)))%nat ->
  exists nv pi,
    get_next_values self st = Ok nv
    /\ get_next_policy self st = Ok pi
    /\ forall s, (s < shape0 (transitions (env self)))%nat ->
         exists k,
           (k < shape1 (transitions (env self)))%nat
           /\ policy_at (Ok pi) s k = 1
           /\ (forall a, (a < shape1 (transitions (env self)))%nat ->
                         a <> k -> policy_at (Ok pi) s a = 0)
           /\ nth s nv 0 = Q_spec self st s k.
Proof.
  intros Hpt Hshape Hact.
  exists (map (max_q self st) (seq 0 (shape0 (transitions (env self))))).
  eexists.
  split; [apply get_next_values_det_eq; assumption|].
  split; [apply get_next_policy_det_eq; assumption|].
  intros s Hs. exists (argmax_q self st s).
  destruct (argmax_q_spec self st Hact s) as [_ (Hk & Hbest & _)].
  destruct (max_q_spec self st Hact s) as [_ Hmax].
  assert (Hentry : forall a, (a < shape1 (transitions (env self)))%nat ->
            policy_at
              (Ok (map (fun s0 => one_hot (shape1 (transitions (env self)))
                                    (argmax_q self st s0))
                     (seq 0 (shape0 (transitions (env self)))))) s a
            = if Nat.eqb a (argmax_q self st s) then 1 else 0).
  { intros a Ha. unfold policy_at, result_get.
    rewrite (nth_lookup_Some _ s []
               (one_hot (shape1 (transitions (env self)))
                  (argmax_q self st s)))
      by (rewrite lookup_map_seq by exact Hs; reflexivity).
    unfold one_hot. rewrite nth_map_seq by exact Ha. reflexivity. }
  split; [exact Hk|]. split; [|split].
  - rewrite Hentry by exact Hk. rewrite Nat.eqb_refl. reflexivity.
  - intros a Ha Hne. rewrite Hentry by exact Ha.
    apply Nat.eqb_neq in Hne. rewrite Hne. reflexivity.
  - rewrite nth_values_det by exact Hs.
    eapply is_max_over_unique; [exact Hmax|].
    split; [exists (argmax_q self st s); auto|exact Hbest].
Qed.

Lemma greedy_policy_attains_next_value_witness :
  exists nv pi,
    get_next_values vi_tie st_one = Ok nv
    /\ get_next_policy vi_tie st_one = Ok pi
    /\ forall s, (s < 1)%nat ->
         exists k,
           (k < 2)%nat
           /\ policy_at (Ok pi) s k = 1
           /\ (forall a, (a < 2)%nat -> a <> k -> policy_at (Ok pi) s a = 0)
           /\ nth s nv 0 = Q_spec vi_tie st_one s k.
Proof.
  apply (greedy_policy_attains_next_value vi_tie st_one).
  - reflexivity.
  - repeat split.
  - simpl. lia.
Defined.

(** ** Degenerate and mismatched shapes *)

Lemma for_range_first_raises {St : Type} (body : nat -> St -> result St)
    (n : nat) (st : St) (e : exn) :
  (0 < n)%nat -> body 0%nat st = Raise e -> for_range n body st = Raise e.
Proof.
  intros Hn Hbody. destruct n as [|n]; [lia|].
  unfold for_range. simpl. rewrite Hbody. reflexivity.
Qed.

Lemma mode_cases (self : ValueIteration) :
  policy_type self = "deterministic"%string
  \/ policy_type self = "max_ent"%string ->
  (String.eqb (policy_type self) "deterministic" = true)
  \/ (String.eqb (policy_type self) "deterministic" = false
      /\ String.eqb (policy_type self) "max_ent" = true).
Proof.
  intros [->| ->]; [left|right]; auto.
Qed.

(** X9: with at least one state but no action (transitions of shape
    (S, 0, S')) and a valid mode, both [get_next_values] and
    [get_next_policy] raise ValueError: the maximum (or argmax) of the
    empty row of Q-values does not exist. *)
Theorem backups_without_actions_raise (self : ValueIteration) (st : store) :
  policy_type self = "deterministic"%string
  \/ policy_type self = "max_ent"%string ->
  (0 < shape0 (transitions (env self)))%nat ->
  shape1 (transitions (env self)) = 0%nat ->
  get_next_values self st = Raise ValueError
  /\ get_next_policy self st = Raise ValueError.
Proof.
  intros Hmode HS HA. apply mode_cases in Hmode.
  unfold get_next_values, get_next_policy. rewrite HA.
  destruct Hmode as [-> | [-> ->]]; split;
    apply for_range_first_raises; auto.
Qed.

Lemma backups_without_actions_raise_witness :
  get_next_values
    {| env := {| transitions := const_tensor 1 0 1 1;
                 rewards := const_tensor 1 0 1 1;
                 discount := 1 / 2 |};
       precision := 1 / 1000; log_itr := 1;
       policy_type := "deterministic"; max_itr := 50; render_itr := 2;
       render := true; num_rollouts := 20; temperature := 1;
       eps := 1 / 100000000 |} st_one
  = Raise ValueError
  /\ get_next_policy
       {| env := {| transitions := const_tensor 1 0 1 1;
                    rewards := const_tensor 1 0 1 1;
                    discount := 1 / 2 |};
          precision := 1 / 1000; log_itr := 1;
          policy_type := "deterministic"; max_itr := 50; render_itr := 2;
          render := true; num_rollouts := 20; temperature := 1;
          eps := 1 / 100000000 |} st_one
     = Raise ValueError.
Proof.
  apply backups_without_actions_raise.
  - left. reflexivity.
  - simpl. lia.
  - reflexivity.
Defined.

Lemma broadcast_mismatch (f : R -> R -> R) (x y : list R) :
  length x <> length y -> length x <> 1%nat -> length y <> 1%nat ->
  broadcast f x y = Raise ValueError.
Proof.
  intros Hne Hx Hy. unfold broadcast.
  apply Nat.eqb_neq in Hne. rewrite Hne.
  destruct x as [|c [|c' x]], y as [|d [|d' y]]; simpl in *;
    congruence.
Qed.

(** X10: when the value container holds a number of values that is neither
    S nor 1 (and S is not 1), with both tensors of shape (S, A, S), at
    least one state and one action and a valid mode, both
    [get_next_values] and [get_next_policy] raise ValueError: the arrays
    cannot be broadcast together. *)
Theorem backups_on_wrong_length_raise (self : ValueIteration) (st : store) :
  policy_type self = "deterministic"%string
  \/ policy_type self = "max_ent"%string ->
  (0 < shape0 (transitions (env self)))%nat ->
  (0 < shape1 (transitions (env self)))%nat ->
  shape0 (rewards (env self)) = shape0 (transitions (env self)) ->
  shape1 (rewards (env self)) = shape1 (transitions (env self)) ->
  shape2 (rewards (env self)) = shape0 (transitions (env self)) ->
  shape0 (transitions (env self)) <> 1%nat ->
  length (value_fun st) <> shape0 (transitions (env self)) ->
  length (value_fun st) <> 1%nat ->
  get_next_values self st = Raise ValueError
  /\ get_next_policy self st = Raise ValueError.
Proof.
  intros Hmode HS HA H0 H1 H2 HS1 HV HV1. apply mode_cases in Hmode.
  assert (Hq : q_value self st 0 0 = Raise ValueError).
  { unfold q_value.
    rewrite (slice_in_range (transitions (env self))) by assumption.
    cbn [mbind result_bind].
    rewrite (slice_in_range (rewards (env self)))
      by (rewrite ?H0, ?H1; assumption).
    cbn [mbind result_bind].
    rewrite broadcast_mismatch; [reflexivity| | |].
    - rewrite length_map, length_seq. unfold np_scale, get_values.
      rewrite length_map, H2. congruence.
    - rewrite length_map, length_seq, H2. exact HS1.
    - unfold np_scale, get_values. rewrite length_map. exact HV1. }
  assert (Hfill : fill_v_s self st (shape1 (transitions (env self))) 0
                  = Raise ValueError).
  { unfold fill_v_s. apply for_range_first_raises; [exact HA|].
    rewrite Hq. reflexivity. }
  unfold get_next_values, get_next_policy.
  destruct Hmode as [-> | [-> ->]]; split;
    apply for_range_first_raises; auto; rewrite Hfill; reflexivity.
Qed.

Lemma backups_on_wrong_length_raise_witness :
  get_next_values
    {| env := {| transitions := const_tensor 2 1 2 (1 / 2);
                 rewards := const_tensor 2 1 2 1;
                 discount := 1 / 2 |};
       precision := 1 / 1000; log_itr := 1;
       policy_type := "max_ent"; max_itr := 50; render_itr := 2;
       render := true; num_rollouts := 20; temperature := 1;
       eps := 1 / 100000000 |} (store_of [0; 0; 0])
  = Raise ValueError
  /\ get_next_policy
       {| env := {| transitions := const_tensor 2 1 2 (1 / 2);
                    rewards := const_tensor 2 1 2 1;
                    discount := 1 / 2 |};
          precision := 1 / 1000; log_itr := 1;
          policy_type := "max_ent"; max_itr := 50; render_itr := 2;
          render := true; num_rollouts := 20; temperature := 1;
          eps := 1 / 100000000 |} (store_of [0; 0; 0])
     = Raise ValueError.
Proof.
  apply backups_on_wrong_length_raise; simpl; try lia; try reflexivity.
  right. reflexivity.
Defined.

(** ** The a-priori bound of the stopping rule *)

Lemma pow_le_mono_small (x : R) (n m : nat) :
  0 <= x <= 1 -> (n <= m)%nat -> x ^ m <= x ^ n.
Proof.
  intros Hx Hnm. induction Hnm as [|m Hnm IH]; [lra|].
  simpl. pose proof (pow_le x m (proj1 Hx)). nra.
Qed.

Lemma is_rmax_nonneg (t : ndarray3) (m : R) : is_rmax t m -> 0 <= m.
Proof.
  intros [(s & a & s' & _ & _ & _ & <-) _]. apply Rabs_pos.
Qed.

(** If the second condition holds at [itr0], a call that returns returns
    [True], whatever the two arrays are. *)
Lemma stop_condition_bound_suffices (self : ValueIteration) (itr0 : nat)
    (nv : pyval) (v : list R) (Rm : R) (b : bool) :
  is_rmax (rewards (env self)) Rm ->
  discount (env self) ^ itr0 * Rm / (1 - discount (env self))
  < precision self ->
  _stop_condition self itr0 nv v = Ok b -> b = true.
Proof.
  intros Hrmax Hcond. unfold _stop_condition.
  rewrite (rmax_ok _ _ Hrmax). cbn [mbind result_bind].
  destruct (np_sub nv v) as [d|e]; cbn [mbind result_bind]; [|discriminate].
  destruct (np_max (np_abs d)) as [lhs|e]; cbn [mbind result_bind];
    [|discriminate].
  unfold py_div.
  destruct (Req_dec_T (1 - discount (env self)) 0); cbn [mbind result_bind];
    [discriminate|].
  destruct (Req_dec_T _ 0); cbn [mbind result_bind]; [discriminate|].
  intros [= <-]. apply orb_true_iff. right. apply Rltb_true, Hcond.
Qed.

(** X11: for a discount strictly between 0 and 1, once
    gamma^itr * Rmax / (1 - gamma) < precision holds at some iteration it
    holds at every later one, and [_stop_condition] then returns True for
    every array [next_v] as long as a non-empty [v], however far apart the
    two are. *)
Theorem stop_condition_stays_true (self : ValueIteration) (itr0 itr1 : nat)
    (nv v : list R) (Rm : R) :
  0 < discount (env self) < 1 ->
  is_rmax (rewards (env self)) Rm ->
  discount (env self) ^ itr0 * Rm / (1 - discount (env self))
  < precision self ->
  (itr0 <= itr1)%nat ->
  length nv = length v ->
  (0 < length v)%nat ->
  discount (env self) ^ itr1 * Rm / (1 - discount (env self))
  < precision self
  /\ _stop_condition self itr1 (NdArray nv) v = Ok true.
Proof.
  intros Hgamma Hrmax Hcond Hle Hlen Hpos.
  pose proof (is_rmax_nonneg _ _ Hrmax) as HRm.
  assert (Hcond1 : discount (env self) ^ itr1 * Rm / (1 - discount (env self))
                   < precision self).
  { pose proof (pow_le_mono_small (discount (env self)) itr0 itr1
                  ltac:(lra) Hle) as Hpow.
    pose proof (Rinv_0_lt_compat (1 - discount (env self)) ltac:(lra)) as Hinv.
    assert (discount (env self) ^ itr1 * Rm <= discount (env self) ^ itr0 * Rm)
      by nra.
    unfold Rdiv in *. nra. }
  split; [exact Hcond1|].
  destruct (stop_divisors_nonzero _ Hgamma) as [Hd1 Hd2].
  assert (Hret : exists b, _stop_condition self itr1 (NdArray nv) v = Ok b).
  { unfold _stop_condition. rewrite (rmax_ok _ _ Hrmax).
    cbn [mbind result_bind]. simpl np_sub.
    rewrite broadcast_same_length by exact Hlen. cbn [mbind result_bind].
    destruct (np_max_abs_returns (zip_with Rminus nv v)) as [lhs ->].
    { rewrite length_zip_with. lia. }
    cbn [mbind result_bind].
    rewrite !py_div_ok by assumption. cbn [mbind result_bind].
    rewrite !py_div_ok by assumption. cbn [mbind result_bind].
    eexists. reflexivity. }
  destruct Hret as [b Hb]. rewrite Hb. f_equal.
  eapply stop_condition_bound_suffices; eassumption.
Qed.

Lemma stop_condition_stays_true_witness :
  (1 / 2) ^ 12 * 1 / (1 - 1 / 2) < 1 / 1000
  /\ _stop_condition (vi_one "deterministic" 1) 12 (NdArray [1000]) [0]
     = Ok true.
Proof.
  apply (stop_condition_stays_true (vi_one "deterministic" 1) 11 12
           [1000] [0] 1).
  - simpl. lra.
  - split.
    + exists 0%nat, 0%nat, 0%nat. simpl.
      repeat split; try lia.
      unfold Rabs. destruct (Rcase_abs 1); lra.
    + intros s a s' _ _ _. simpl.
      unfold Rabs. destruct (Rcase_abs 1); lra.
  - simpl. lra.
  - lia.
  - reflexivity.
  - simpl. lia.
Defined.

(** ** More on the training loop *)

Section TrainMore.

Variable self : ValueIteration.
Variable rollout : Env -> list (list R) -> nat -> R.

(** What a returning [train] has done, in terms of the loop. *)
Lemma train_done_inv (fuel : nat) (st : store) (final : loop_state) :
  train self rollout fuel st = Done final ->
  exists n ls,
    run_body self rollout n (train_start st) = Ok ls
    /\ itr ls = n
    /\ value_updates (calls (ls_store ls))
       = (value_updates (calls st) + n)%nat
    /\ (forall k, (k < n)%nat ->
          exists lk, run_body self rollout k (train_start st) = Ok lk
                     /\ itr lk = k
                     /\ loop_guard self (value_fun st) lk = Ok true)
    /\ train_finish self ls = Ok final.
Proof.
  unfold train, get_values.
  destruct (train_loop self rollout fuel (value_fun st) (train_start st))
    as [ls|e|] eqn:Hloop; [|discriminate..].
  destruct (train_finish self ls) as [ls'|e] eqn:Hfin; [|discriminate].
  intros [= <-].
  destruct (train_loop_done self rollout _ _ _ _ Hloop)
    as (n & Hn & Hitr & Hupd & Hpre & _).
  exists n, ls. simpl in Hitr, Hupd, Hpre. auto.
Qed.

Lemma train_finish_effect (ls final : loop_state) :
  train_finish self ls = Ok final ->
  itr final = itr ls
  /\ value_fun (ls_store final) = value_fun (ls_store ls)
  /\ value_updates (calls (ls_store final))
     = value_updates (calls (ls_store ls)).
Proof.
  unfold train_finish.
  destruct (get_next_policy self (ls_store ls)) as [pi|e];
    cbn [mbind result_bind]; [|discriminate].
  intros [= <-]. simpl. auto.
Qed.

End TrainMore.

(** X12: on trainable inputs, with more fuel than [max_itr], if
    gamma^N * Rmax / (1 - gamma) < precision then [train] returns after at
    most N executions of the loop body, hence at most N updates of the
    value container, whatever [max_itr] and the initial values are. *)
Theorem train_stops_by_a_priori_bound (self : ValueIteration)
    (rollout : Env -> list (list R) -> nat -> R) (fuel : nat) (st : store)
    (N : nat) (Rm : R) :
  trainable self st ->
  (Z.to_nat (max_itr self) < fuel)%nat ->
  is_rmax (rewards (env self)) Rm ->
  discount (env self) ^ N * Rm / (1 - discount (env self)) < precision self ->
  exists final,
    train self rollout fuel st = Done final
    /\ (itr final <= N)%nat
    /\ (value_updates (calls (ls_store final))
        <= value_updates (calls st) + N)%nat.
Proof.
  intros Hok Hfuel Hrmax Hcond.
  destruct (train_returns self rollout st Hok fuel Hfuel) as [final Hfinal].
  exists final. split; [exact Hfinal|].
  destruct (train_done_inv self rollout fuel st final Hfinal)
    as (n & ls & _ & Hitr & Hupd & Hpre & Hfin).
  destruct (train_finish_effect self ls final Hfin) as (Hitr' & _ & Hupd').
  assert (Hn : (n <= N)%nat).
  { destruct (Nat.le_gt_cases n N) as [Hle|Hgt]; [exact Hle|].
    destruct (Hpre N Hgt) as (lk & _ & Hk & Hg).
    apply loop_guard_true in Hg. destruct Hg as [Hstop _].
    rewrite Hk in Hstop.
    pose proof (stop_condition_bound_suffices self N (next_v lk)
                  (value_fun st) Rm false Hrmax Hcond Hstop).
    discriminate. }
  lia.
Qed.

Lemma train_stops_by_a_priori_bound_witness :
  exists final,
    train (vi_one "deterministic" 1) (fun _ _ _ => 0) 51 st_one = Done final
    /\ (itr final <= 11)%nat
    /\ (value_updates (calls (ls_store final))
        <= value_updates (calls st_one) + 11)%nat.
Proof.
  apply (train_stops_by_a_priori_bound (vi_one "deterministic" 1)
           (fun _ _ _ => 0) 51 st_one 11 1).
  - unfold trainable. simpl.
    repeat split; (lia || lra || discriminate || (left; reflexivity)).
  - simpl. lia.
  - split.
    + exists 0%nat, 0%nat, 0%nat. simpl.
      repeat split; try lia.
      unfold Rabs. destruct (Rcase_abs 1); lra.
    + intros s a s' _ _ _. simpl.
      unfold Rabs. destruct (Rcase_abs 1); lra.
  - simpl. lra.
Defined.

Lemma get_next_values_reads_values_only (self : ValueIteration)
    (st st' : store) :
  value_fun st' = value_fun st ->
  get_next_values self st' = get_next_values self st.
Proof.
  intros H. unfold get_next_values, fill_v_s, q_value, get_values.
  rewrite H. reflexivity.
Qed.

Lemma loop_body_values (self : ValueIteration)
    (rollout : Env -> list (list R) -> nat -> R) (ls ls' : loop_state) :
  loop_body self rollout ls = Ok ls' ->
  get_next_values self (store_of (value_fun (ls_store ls)))
  = Ok (value_fun (ls_store ls')).
Proof.
  unfold loop_body.
  destruct (py_mod (Z.of_nat (itr ls)) (log_itr self)) as [lg|e];
    cbn [mbind result_bind]; [|discriminate].
  destruct (py_mod (Z.of_nat (itr ls)) (render_itr self)) as [rd|e];
    cbn [mbind result_bind]; [|discriminate].
  destruct (Z.eqb lg 0).
  - destruct (get_next_policy self (ls_store ls)) as [pi|e];
      cbn [mbind result_bind]; [|discriminate].
    destruct (get_next_values self _) as [nv|e] eqn:Hnv;
      cbn [mbind result_bind]; [|discriminate].
    intros [= <-]. simpl. rewrite <- Hnv.
    apply get_next_values_reads_values_only. reflexivity.
  - cbn [mbind result_bind].
    destruct (get_next_values self _) as [nv|e] eqn:Hnv;
      cbn [mbind result_bind]; [|discriminate].
    intros [= <-]. simpl. rewrite <- Hnv.
    apply get_next_values_reads_values_only. reflexivity.
Qed.

Lemma run_body_values (self : ValueIteration)
    (rollout : Env -> list (list R) -> nat -> R) (n : nat) :
  forall ls ls',
    run_body self rollout n ls = Ok ls' ->
    iter_values self n (value_fun (ls_store ls))
    = Ok (value_fun (ls_store ls')).
Proof.
  induction n as [|n IH]; intros ls ls'; simpl.
  - intros [= <-]. reflexivity.
  - destruct (loop_body self rollout ls) as [ls1|e] eqn:Hb;
      cbn [mbind result_bind]; [|discriminate].
    intros Hrun. rewrite (loop_body_values _ _ _ _ Hb).
    cbn [mbind result_bind]. apply IH, Hrun.
Qed.

(** X13: on trainable inputs, with more fuel than [max_itr], [train]
    returns, and the values it leaves in the value container are those of
    n successive calls of [get_next_values] started from the initial
    values, n being the final iteration counter: logging, rendering and
    the policy updates have no influence on the values. *)
Theorem train_values_are_iterated_backups (self : ValueIteration)
    (rollout : Env -> list (list R) -> nat -> R) (fuel : nat) (st : store) :
  trainable self st ->
  (Z.to_nat (max_itr self) < fuel)%nat ->
  exists final,
    train self rollout fuel st = Done final
    /\ iter_values self (itr final) (value_fun st)
       = Ok (value_fun (ls_store final)).
Proof.
  intros Hok Hfuel.
  destruct (train_returns self rollout st Hok fuel Hfuel) as [final Hfinal].
  exists final. split; [exact Hfinal|].
  destruct (train_done_inv self rollout fuel st final Hfinal)
    as (n & ls & Hrun & Hitr & _ & _ & Hfin).
  destruct (train_finish_effect self ls final Hfin) as (Hitr' & Hval & _).
  rewrite Hitr', Hitr, Hval.
  apply (run_body_values self rollout n (train_start st) ls Hrun).
Qed.

Lemma train_values_are_iterated_backups_witness :
  exists final,
    train (vi_one "deterministic" 1) (fun _ _ _ => 0) 51 st_one = Done final
    /\ iter_values (vi_one "deterministic" 1) (itr final) (value_fun st_one)
       = Ok (value_fun (ls_store final)).
Proof.
  apply (train_values_are_iterated_backups (vi_one "deterministic" 1)
           (fun _ _ _ => 0) 51 st_one).
  - unfold trainable. simpl.
    repeat split; (lia || lra || discriminate || (left; reflexivity)).
  - simpl. lia.
Defined.

(** ** Configurations on which [train] fails *)

Lemma stop_condition_degenerate_discount (self : ValueIteration)
    (itr0 : nat) (c : R) (v : list R) :
  discount (env self) = 0 \/ discount (env self) = 1 ->
  (0 < shape0 (rewards (env self)))%nat ->
  (0 < shape1 (rewards (env self)))%nat ->
  (0 < shape2 (rewards (env self)))%nat ->
  (0 < length v)%nat ->
  _stop_condition self itr0 (PyFloat c) v = Raise ZeroDivisionError.
Proof.
  intros Hgamma H0 H1 H2 Hv. unfold _stop_condition.
  destruct (np_max_abs_returns (flatten (rewards (env self)))) as [rmax ->].
  { apply flatten_nonempty; assumption. }
  cbn [mbind result_bind np_sub].
  destruct (np_max_abs_returns (map (fun y => c - y) v)) as [lhs ->].
  { rewrite length_map. exact Hv. }
  cbn [mbind result_bind].
  destruct Hgamma as [-> | ->].
  - rewrite (py_div_ok (2 * 0)) by lra. cbn [mbind result_bind].
    replace (2 * 0 / (1 - 0)) with 0 by (unfold Rdiv; lra).
    rewrite py_div_zero. reflexivity.
  - replace (1 - 1) with 0 by lra. rewrite !py_div_zero. reflexivity.
Qed.

(** X14: when the discount is 0 or 1 (rewards tensor and value container
    not empty), [train] raises ZeroDivisionError at the first evaluation of
    the loop condition: no backup is computed and no container is
    updated. *)
Theorem train_fails_on_degenerate_discount (self : ValueIteration)
    (rollout : Env -> list (list R) -> nat -> R) (fuel : nat) (st : store) :
  discount (env self) = 0 \/ discount (env self) = 1 ->
  (0 < shape0 (rewards (env self)))%nat ->
  (0 < shape1 (rewards (env self)))%nat ->
  (0 < shape2 (rewards (env self)))%nat ->
  (0 < length (value_fun st))%nat ->
  (0 < fuel)%nat ->
  loop_guard self (value_fun st) (train_start st) = Raise ZeroDivisionError
  /\ train self rollout fuel st = Raised ZeroDivisionError.
Proof.
  intros Hgamma H0 H1 H2 Hv Hfuel.
  assert (Hg : loop_guard self (value_fun st) (train_start st)
               = Raise ZeroDivisionError).
  { unfold loop_guard. simpl itr. simpl next_v.
    rewrite stop_condition_degenerate_discount by assumption.
    reflexivity. }
  split; [exact Hg|].
  destruct fuel as [|fuel]; [lia|].
  unfold train, get_values. simpl train_loop. rewrite Hg. reflexivity.
Qed.

Lemma train_fails_on_degenerate_discount_witness :
  loop_guard vi_zero_discount (value_fun st_one) (train_start st_one)
  = Raise ZeroDivisionError
  /\ train vi_zero_discount (fun _ _ _ => 0) 51 st_one
     = Raised ZeroDivisionError.
Proof.
  apply (train_fails_on_degenerate_discount vi_zero_discount
           (fun _ _ _ => 0) 51 st_one); simpl; try lia.
  left. reflexivity.
Defined.

(** X15: when [log_itr] or [render_itr] is 0 and the loop is entered (the
    first stop test is False and [max_itr] > 0), [train] raises
    ZeroDivisionError in the first execution of the body, before any
    container is updated; for [render_itr] this is so even when [render]
    is False, since the remainder is taken before [render] is looked at. *)
Theorem train_fails_on_zero_period (self : ValueIteration)
    (rollout : Env -> list (list R) -> nat -> R) (fuel : nat) (st : store) :
  log_itr self = 0%Z \/ render_itr self = 0%Z ->
  _stop_condition self 0 (PyFloat 1000000) (value_fun st) = Ok false ->
  (0 < max_itr self)%Z ->
  (0 < fuel)%nat ->
  loop_body self rollout (train_start st) = Raise ZeroDivisionError
  /\ train self rollout fuel st = Raised ZeroDivisionError.
Proof.
  intros Hzero Hstop Hmax Hfuel.
  assert (Hb : loop_body self rollout (train_start st)
               = Raise ZeroDivisionError).
  { unfold loop_body, py_mod. simpl itr.
    destruct (Z.eqb (log_itr self) 0) eqn:Hlog; [reflexivity|].
    cbn [mbind result_bind].
    destruct Hzero as [H|H]; [rewrite H in Hlog; discriminate|].
    rewrite H. reflexivity. }
  split; [exact Hb|].
  destruct fuel as [|fuel]; [lia|].
  assert (Hg : loop_guard self (value_fun st) (train_start st) = Ok true).
  { unfold loop_guard. simpl itr. simpl next_v. rewrite Hstop.
    cbn [mbind result_bind negb andb].
    apply Z.ltb_lt in Hmax. change (Z.of_nat 0) with 0%Z.
    rewrite Hmax. reflexivity. }
  unfold train, get_values. simpl train_loop. rewrite Hg, Hb. reflexivity.
Qed.

Lemma train_fails_on_zero_period_witness :
  loop_body
    {| env := env_one; precision := 1 / 1000; log_itr := 1;
       policy_type := "deterministic"; max_itr := 50; render_itr := 0;
       render := false; num_rollouts := 20; temperature := 1;
       eps := 1 / 100000000 |} (fun _ _ _ => 0) (train_start st_one)
  = Raise ZeroDivisionError
  /\ train
       {| env := env_one; precision := 1 / 1000; log_itr := 1;
          policy_type := "deterministic"; max_itr := 50; render_itr := 0;
          render := false; num_rollouts := 20; temperature := 1;
          eps := 1 / 100000000 |} (fun _ _ _ => 0) 51 st_one
     = Raised ZeroDivisionError.
Proof.
  apply train_fails_on_zero_period.
  - right. reflexivity.
  - unfold _stop_condition. simpl.
    rewrite !py_div_ok by lra. cbn [mbind result_bind].
    rewrite !py_div_ok by lra. cbn [mbind result_bind].
    f_equal. apply orb_false_iff. split.
    + unfold Rltb. destruct (Rlt_dec _ _) as [H|H]; [|reflexivity].
      exfalso. revert H. unfold Rabs.
      destruct (Rcase_abs (1000000 - 0)); lra.
    + unfold Rltb. destruct (Rlt_dec _ _) as [H|H]; [|reflexivity].
      exfalso. revert H. unfold Rabs. destruct (Rcase_abs 1); lra.
  - simpl. lia.
  - lia.
Defined.

(** ** Fixed points of the deterministic backup *)





